(** * mlsblk: a shallow embedding of [mlsblk.c] and its verified properties

    The program lists block devices as a tree.  It reads one property list
    ([diskutil list -plist]), the mount table ([getmntinfo]) and, with [-f],
    one property list per device ([diskutil info -plist]).

    Conventions of the embedding:
    - a [char *] is a [string] of bytes without NUL; [cfstr] cuts a
      CoreFoundation string at its first NUL, as every later [strcmp],
      [strstr] and [printf] would;
    - a [uint64_t] is a [Z] with the wrap-around of the conversion written out;
    - every [Node] is allocated by [ensure_node], which also appends it to
      [flat.arr]; a [Node *] is therefore the position of the node in that
      array, and the array itself is the store the program mutates;
    - recursion over node pointers takes a depth budget: [None] stands for a
      recursion that does not return within the budget, and for undefined
      behaviour (a dictionary accessor on a value that is no dictionary, a
      second release of a node); what is proved of runs is proved of runs
      that return, and a run is said not to return only where that holds
      for every budget;
    - [malloc], [calloc], [realloc] and [strdup] are taken to succeed, except
      in [parse_columns] where the failure is an explicit input;
    - [main] starts after [getopt]; the options are its input. *)

From stdpp Require Import list strings.
From Stdlib Require Import Ascii ZArith Lia DecimalString Permutation.

Open Scope Z_scope.

(** ** C strings *)

Module CStr.

Definition uc (c : ascii) : Z := Z.of_N (N_of_ascii c).

(** [*p] for a [const char *p]: the terminating NUL reads as 0. *)
Definition deref (p : string) : Z :=
  match p with
  | String c _ => uc c
  | EmptyString => 0
  end.

(** The bytes up to the first NUL. *)
Fixpoint c_str (s : string) : string :=
  match s with
  | String c t => if Ascii.eqb c Ascii.zero then EmptyString else String c (c_str t)
  | EmptyString => EmptyString
  end.

Fixpoint str_drop (n : nat) (s : string) : string :=
  match n, s with
  | S n', String _ t => str_drop n' t
  | _, _ => s
  end.

Fixpoint str_take (n : nat) (s : string) : string :=
  match n, s with
  | S n', String c t => String c (str_take n' t)
  | _, _ => EmptyString
  end.

(** [strstr(hay, needle) != NULL]. *)
Fixpoint strstr (hay needle : string) : bool :=
  String.prefix needle hay ||
  match hay with
  | String _ t => strstr t needle
  | EmptyString => false
  end.

(** [snprintf(buf, bufsz, "%s", s)]: at most [bufsz - 1] bytes are stored. *)
Definition snprintf (bufsz : nat) (s : string) : string := str_take (bufsz - 1) s.

Definition is_digit (c : ascii) : bool := (48 <=? uc c) && (uc c <=? 57).

Definition ULONG_MAX : Z := 2 ^ 64 - 1.

(** [strtoul(p, &p, 10)] on a string that starts with a digit: the value of
    the maximal digit run, clamped to [ULONG_MAX], and the rest. *)
Fixpoint strtoul_from (acc : Z) (p : string) : Z * string :=
  match p with
  | String c t =>
      if is_digit c
      then strtoul_from (Z.min ULONG_MAX (acc * 10 + (uc c - 48))) t
      else (acc, p)
  | EmptyString => (acc, p)
  end.

Definition strtoul (p : string) : Z * string := strtoul_from 0 p.

Definition tolower (c : ascii) : ascii :=
  if (65 <=? uc c) && (uc c <=? 90)
  then ascii_of_N (Z.to_N (uc c + 32))
  else c.

Fixpoint str_lower (s : string) : string :=
  match s with
  | String c t => String (tolower c) (str_lower t)
  | EmptyString => EmptyString
  end.

(** [strcasecmp(a, b) == 0] in the C locale. *)
Definition strcasecmp_eq (a b : string) : bool := String.eqb (str_lower a) (str_lower b).

(** [%llu] and the integer part of [%f]. *)
Definition dec (z : Z) : string := NilZero.string_of_uint (N.to_uint (Z.to_N z)).

Fixpoint spaces (n : nat) : string :=
  match n with
  | O => EmptyString
  | S n' => String " " (spaces n')
  end.

End CStr.
Import CStr.

(** ** The identifier comparator ([name_cmp], [node_cmp]) and [qsort] *)

(** The loop that runs while neither [pa] nor [pb] is at its NUL.  Every
    iteration that continues moves [pa] forward, so [S (String.length pa)]
    iterations always suffice ([name_cmp_loop_returns]). *)
Fixpoint name_cmp_loop (fuel : nat) (pa pb : string) : option Z :=
  match fuel with
  | O => None
  | S fuel' =>
      match pa, pb with
      | String ca ta, String cb tb =>
          if Ascii.eqb ca cb then name_cmp_loop fuel' ta tb
          else if Ascii.eqb ca "s" && Ascii.eqb cb "s" then name_cmp_loop fuel' ta tb
          else if Ascii.eqb ca "s" then Some 1
          else if Ascii.eqb cb "s" then Some (-1)
          else if is_digit ca && is_digit cb then
            let '(na, pa') := strtoul pa in
            let '(nb, pb') := strtoul pb in
            if negb (na =? nb)
            then Some (Z.b2z (na >? nb) - Z.b2z (na <? nb))
            else name_cmp_loop fuel' pa' pb'
          else Some (uc ca - uc cb)
      | _, _ => Some (deref pa - deref pb)
      end
  end.

Definition skip_disk (a : string) : string :=
  if String.prefix "disk" a then str_drop 4 a else a.

Definition name_cmp (a b : string) : Z :=
  let pa := skip_disk a in
  let pb := skip_disk b in
  default 0 (name_cmp_loop (S (String.length pa)) pa pb).

(** [qsort] as the C library of macOS has it for fewer than 7 elements: an
    insertion sort that takes the elements in their order and moves each
    one towards the front while the element before it compares greater.
    On 7 elements and more the library partitions around a pivot first;
    the outcome is the same whenever the comparator orders the elements
    consistently and calls no two of them equal.  The sorted run is kept
    in reverse, its last element first. *)
Section Qsort.
Context {A : Type} (cmp : A → A → Z).

(** The inner loop: [x] goes past every element of the run that compares
    greater than [x], and stops at the first one that does not. *)
Fixpoint qsort_insert (x : A) (run : list A) : list A :=
  match run with
  | [] => [x]
  | y :: run' => if 0 <? cmp y x then y :: qsort_insert x run' else x :: run
  end.

Definition qsort (l : list A) : list A :=
  reverse (foldl (λ run x, qsort_insert x run) [] l).
End Qsort.

(** ** Human-readable sizes ([fmt_size]) *)

(** [(double)bytes]: exact below 2^53, otherwise rounded to 53 significant
    bits, ties to even.  The result is an integer. *)
Definition double_of_u64 (n : Z) : Z :=
  if n <? 2 ^ 53 then n
  else
    let e := Z.log2 n - 52 in
    let q := n / 2 ^ e in
    let r := n mod 2 ^ e in
    let q' := if (2 ^ (e - 1) <? r) || ((r =? 2 ^ (e - 1)) && Z.odd q) then q + 1 else q in
    q' * 2 ^ e.

(** [while (v >= 1024 && u < 5) { v /= 1024; u++; }] with [v = num / den];
    dividing a double in this range by 1024 is exact.  The loop runs at
    most five times because [u] starts at 0. *)
Fixpoint fmt_scale (steps : nat) (num den : Z) (u : nat) : Z * Z * nat :=
  match steps with
  | O => (num, den, u)
  | S steps' =>
      if (1024 * den <=? num) && (u <? 5)%nat
      then fmt_scale steps' num (den * 1024) (S u)
      else (num, den, u)
  end.

Definition units : list ascii := ["B"; "K"; "M"; "G"; "T"; "P"]%char.

(** [%.1f] of [num / den]: the nearest tenth, ties to even. *)
Definition round_tenths (num den : Z) : Z :=
  let t := 10 * num in
  let q := t / den in
  let r := t mod den in
  if (den <? 2 * r) || ((2 * r =? den) && Z.odd q) then q + 1 else q.

Definition fmt_size (bytes : Z) (bufsz : nat) : string :=
  let '(num, den, u) := fmt_scale 5 (double_of_u64 bytes) 1 0 in
  let t := round_tenths num den in
  snprintf bufsz
    (dec (t / 10) +:+ "." +:+ dec (t mod 10) +:+ String (default "B"%char (units !! u)) "").

(** ** Content description to file system type ([content_to_fstype]) *)

Definition content_to_fstype (content : option string) (outsz : nat) : string :=
  match content with
  | None => ""
  | Some content =>
      if strstr content "APFS" || strstr content "41504653" then snprintf outsz "apfs"
      else if strstr content "HFS" || strstr content "Apple_HFS" then snprintf outsz "hfs"
      else if strstr content "EFI" || strstr content "C12A7328" then snprintf outsz "vfat"
      else if strstr content "GUID_partition_scheme" then ""
      else snprintf outsz (str_take 31 content)
  end.

(** ** Columns ([enum Col], [col_names], [parse_columns]) *)

Inductive Col := COL_NAME | COL_SIZE | COL_TYPE | COL_MOUNTPOINT | COL_FSTYPE | COL_LABEL | COL_UUID.

Definition all_cols : list Col :=
  [COL_NAME; COL_SIZE; COL_TYPE; COL_MOUNTPOINT; COL_FSTYPE; COL_LABEL; COL_UUID].

Definition col_names (c : Col) : string :=
  match c with
  | COL_NAME => "NAME"
  | COL_SIZE => "SIZE"
  | COL_TYPE => "TYPE"
  | COL_MOUNTPOINT => "MOUNTPOINT"
  | COL_FSTYPE => "FSTYPE"
  | COL_LABEL => "LABEL"
  | COL_UUID => "UUID"
  end.

Definition DEFAULT_COLS : string := "NAME,SIZE,TYPE,MOUNTPOINT".

(** The tokens [strtok(s, ",")] returns one after the other: the maximal
    runs of bytes other than the comma. *)
Fixpoint strtok_from (tok : string) (s : string) : list string :=
  match s with
  | EmptyString => if String.eqb tok "" then [] else [tok]
  | String c t =>
      if Ascii.eqb c ","
      then (if String.eqb tok "" then strtok_from "" t else tok :: strtok_from "" t)
      else strtok_from (tok +:+ String c "") t
  end.

Definition strtok_all (s : string) : list string := strtok_from "" s.

(** The loop that moves [tok] past its leading blanks. *)
Fixpoint skip_spaces (tok : string) : string :=
  match tok with
  | String c t => if Ascii.eqb c " " then skip_spaces t else tok
  | EmptyString => tok
  end.

(** The inner [for (c = 0; c < COL_MAX; c++)] with its [break]: the first
    column whose name matches. *)
Definition find_col (tok : string) : option Col :=
  List.find (λ c, strcasecmp_eq tok (col_names c)) all_cols.

(** The token loop.  The result is the return value and the columns stored
    so far: [-1] when a recognized column arrives with [*ncols >= 32]. *)
Fixpoint parse_tokens (toks : list string) (cols : list Col) : Z * list Col :=
  match toks with
  | [] => (0, cols)
  | tok :: rest =>
      match find_col (skip_spaces tok) with
      | Some c =>
          if (32 <=? length cols)%nat then (-1, cols)
          else parse_tokens rest (cols ++ [c])
      | None => parse_tokens rest cols
      end
  end.

(** [strdup_ok] says whether [strdup(ostr)] returned memory; [*ncols] is
    already 0 when it did not. *)
Definition parse_columns (strdup_ok : bool) (ostr : string) : Z * list Col :=
  if strdup_ok then parse_tokens (strtok_all ostr) [] else (-1, []).

Definition parse_output_option (strdup_ok : bool) (ostr : option string) : Z * list Col :=
  match ostr with
  | None => parse_columns strdup_ok DEFAULT_COLS
  | Some s =>
      if String.eqb s "" then parse_columns strdup_ok DEFAULT_COLS
      else parse_columns strdup_ok s
  end.

(** ** Property lists and their accessors ([cfstr], [cfint]) *)

#[local] Set Warnings "-register-all".

(** The property-list values the program can tell apart.  Reals, dates and
    data behave like [PBoolean] here except in [cfint]; [diskutil] writes
    sizes as integers. *)
Inductive plist :=
| PString (s : string)
| PInteger (n : Z)
| PBoolean (b : bool)
| PArray (items : list plist)
| PDict (entries : list (string * plist)).

(** [CFDictionaryGetValue]; [None] is the NULL it returns for a missing key. *)
Fixpoint dict_get (entries : list (string * plist)) (key : string) : option plist :=
  match entries with
  | [] => None
  | (k, v) :: rest => if String.eqb k key then Some v else dict_get rest key
  end.

Definition cfstr (ref : option plist) : option string :=
  match ref with
  | Some (PString s) => Some (c_str s)
  | _ => None
  end.

Definition cfint (ref : option plist) : Z :=
  match ref with
  | Some (PInteger n) => n mod 2 ^ 64
  | _ => 0
  end.

(** ** Nodes and the store *)

Record Node := mkNode {
  name : string;
  size : Z;
  type : string;
  mountpoint : string;
  fstype : string;
  label : string;
  uuid : string;
  parent : option nat;
  children : list nat
}.

Definition set_mountpoint (v : string) (n : Node) : Node :=
  mkNode (name n) (size n) (type n) v (fstype n) (label n) (uuid n) (parent n) (children n).
Definition set_fstype (v : string) (n : Node) : Node :=
  mkNode (name n) (size n) (type n) (mountpoint n) v (label n) (uuid n) (parent n) (children n).
Definition set_label (v : string) (n : Node) : Node :=
  mkNode (name n) (size n) (type n) (mountpoint n) (fstype n) v (uuid n) (parent n) (children n).
Definition set_uuid (v : string) (n : Node) : Node :=
  mkNode (name n) (size n) (type n) (mountpoint n) (fstype n) (label n) v (parent n) (children n).
Definition set_parent (v : option nat) (n : Node) : Node :=
  mkNode (name n) (size n) (type n) (mountpoint n) (fstype n) (label n) (uuid n) v (children n).
Definition set_children (v : list nat) (n : Node) : Node :=
  mkNode (name n) (size n) (type n) (mountpoint n) (fstype n) (label n) (uuid n) (parent n) v.

Definition node_create (nm : string) (sz : Z) (ty : string) : Node :=
  mkNode nm sz ty "" "" "" "" None [].

(** [parent->children[parent->nchildren++] = child] after
    [child->parent = parent]. *)
Definition node_add_child (h : list Node) (p c : nat) : list Node :=
  alter (λ n, set_children (children n ++ [c]) n) p (alter (set_parent (Some p)) c h).

(** ** The topology builder *)

(** The linear search of [ensure_node]. *)
Definition find_node (flat : list Node) (nm : string) : option nat :=
  fst <$> list_find (λ n, name n = nm) flat.

Definition ensure_node (flat : list Node) (nm : string) (sz : Z) (ty : string)
    : list Node * nat :=
  match find_node flat nm with
  | Some i => (flat, i)
  | None => (flat ++ [node_create nm sz ty], length flat)
  end.

(** [add_partition]; [CFDictionaryGetValue] on an entry that is not a
    dictionary is undefined. *)
Definition add_partition (flat : list Node) (disk_node : option nat) (part : plist)
    : option (list Node) :=
  match part with
  | PDict d =>
      match cfstr (dict_get d "DeviceIdentifier") with
      | None => Some flat
      | Some idstr =>
          let sz := cfint (dict_get d "Size") in
          let contentstr := cfstr (dict_get d "Content") in
          let '(flat1, child) := ensure_node flat idstr sz "part" in
          let flat2 := alter (set_fstype (content_to_fstype contentstr 64)) child flat1 in
          Some (match disk_node with
                | Some dn => node_add_child flat2 dn child
                | None => flat2
                end)
      end
  | _ => None
  end.

(** [if (s && s[0]) field = s]. *)
Definition set_if_nonempty (setter : string → Node → Node) (s : option string) (n : Node) : Node :=
  match s with
  | Some v => if String.eqb v "" then n else setter v n
  | None => n
  end.

Definition set_if_present (setter : string → Node → Node) (s : option string) (n : Node) : Node :=
  match s with
  | Some v => setter v n
  | None => n
  end.

Definition add_apfs_volume (flat : list Node) (container_node : option nat) (vol : plist)
    : option (list Node) :=
  match vol with
  | PDict d =>
      match cfstr (dict_get d "DeviceIdentifier") with
      | None => Some flat
      | Some idstr =>
          let sz := cfint (dict_get d "Size") in
          let '(flat1, child) := ensure_node flat idstr sz "part" in
          let flat2 := match container_node with
                       | Some cn => node_add_child flat1 cn child
                       | None => flat1
                       end in
          Some (alter (λ n,
                  set_fstype "apfs"
                    (set_if_present set_uuid (cfstr (dict_get d "VolumeUUID"))
                      (set_if_nonempty set_label (cfstr (dict_get d "VolumeName"))
                        (set_if_nonempty set_mountpoint (cfstr (dict_get d "MountPoint")) n))))
                  child flat2)
      end
  | _ => None
  end.

(** The program state the builder threads: [roots[0 .. nroots)] and
    [flat.arr[0 .. flat.n)]. *)
Record Forest := mkForest {
  roots : list nat;
  flat : list Node
}.

(** A [for] loop whose body may fail to return. *)
Fixpoint loop {S A : Type} (body : S → A → option S) (s : S) (l : list A) : option S :=
  match l with
  | [] => Some s
  | x :: l' =>
      match body s x with
      | Some s' => loop body s' l'
      | None => None
      end
  end.

Definition sub_array (ref : option plist) : list plist :=
  match ref with
  | Some (PArray items) => items
  | _ => []
  end.

(** One iteration of the loop of [collect_nodes]. *)
Definition collect_entry (parent : option nat) (st : Forest) (d : plist) : option Forest :=
  match d with
  | PDict e =>
      match cfstr (dict_get e "DeviceIdentifier") with
      | None => Some st
      | Some idstr =>
          let sz := cfint (dict_get e "Size") in
          let contentstr := cfstr (dict_get e "Content") in
          let is_container :=
            match contentstr with
            | Some c => strstr c "Apple_APFS_Container"
            | None => false
            end in
          let is_whole :=
            match contentstr with
            | Some c => strstr c "GUID_partition_scheme" || is_container
            | None => false
            end in
          let '(flat1, disk_node) :=
            ensure_node (flat st) idstr sz (if is_whole then "disk" else "part") in
          let flat2 :=
            match contentstr with
            | Some _ => alter (set_fstype (content_to_fstype contentstr 64)) disk_node flat1
            | None => flat1
            end in
          let attach :=
            match parent with
            | None =>
                if (64 <=? length (roots st))%nat then None
                else Some (mkForest (roots st ++ [disk_node]) flat2)
            | Some p => Some (mkForest (roots st) (node_add_child flat2 p disk_node))
            end in
          match attach with
          | None => Some (mkForest (roots st) flat2)
          | Some st1 =>
              match loop (λ f, add_partition f (Some disk_node)) (flat st1)
                         (sub_array (dict_get e "Partitions")) with
              | None => None
              | Some flat3 =>
                  match loop (λ f, add_apfs_volume f (Some disk_node)) flat3
                             (sub_array (dict_get e "APFSVolumes")) with
                  | None => None
                  | Some flat4 => Some (mkForest (roots st1) flat4)
                  end
              end
          end
      end
  | _ => Some st
  end.

Definition collect_nodes (all : list plist) (st : Forest) (parent : option nat) : option Forest :=
  loop (collect_entry parent) st all.

(** ** Sorting the forest ([node_cmp], [sort_children], [build_tree]) *)

Definition name_of (h : list Node) (n : nat) : string :=
  match h !! n with
  | Some nd => name nd
  | None => ""
  end.

Definition node_cmp (h : list Node) (a b : nat) : Z := name_cmp (name_of h a) (name_of h b).

(** [sort_children] returns at once on a node with at most one child, so
    nothing below such a node is sorted.  The child array is read again at
    every iteration, as the C loop does. *)
Fixpoint sort_children (fuel : nat) (h : list Node) (n : nat) : option (list Node) :=
  match fuel with
  | O => None
  | S fuel' =>
      match h !! n with
      | None => None
      | Some nd =>
          if (length (children nd) <=? 1)%nat then Some h
          else
            let h1 := alter (set_children (qsort (node_cmp h) (children nd))) n h in
            loop (λ hi i,
                    match hi !! n with
                    | Some ndi =>
                        match children ndi !! i with
                        | Some ch => sort_children fuel' hi ch
                        | None => None
                        end
                    | None => None
                    end)
                 h1 (seq 0 (length (children nd)))
      end
  end.

(** The depth given to the recursions over child pointers: a chain of
    child pointers that meets no node twice is not longer than the number
    of nodes. *)
Definition budget (h : list Node) : nat := S (length h).

(** The return value and the state it leaves in [roots], [nroots], [flat]. *)
Definition build_tree (list_plist : list (string * plist)) : option (Z * Forest) :=
  match dict_get list_plist "AllDisksAndPartitions" with
  | Some (PArray all) =>
      match collect_nodes all (mkForest [] []) None with
      | None => None
      | Some st =>
          match loop (λ h r, sort_children (budget h) h r) (flat st) (roots st) with
          | None => None
          | Some h => Some (0, mkForest (qsort (node_cmp h) (roots st)) h)
          end
      end
  | _ => Some (-1, mkForest [] [])
  end.

(** ** The mount resolver ([set_mountpoint_recursive], [fill_mountpoints]) *)

(** The walk sets the mount point of a node whose name matches and does
    not look below it; below a node that does not match it visits every
    child, whatever the earlier children did.  The walk changes no child
    array, so the loop runs over the array as it was on entry. *)
Fixpoint set_mountpoint_recursive (fuel : nat) (h : list Node) (node : nat)
    (from target : string) : option (list Node) :=
  match fuel with
  | O => None
  | S fuel' =>
      match h !! node with
      | None => None
      | Some nd =>
          if String.eqb (name nd) from
          then Some (alter (set_mountpoint target) node h)
          else loop (λ hj ch, set_mountpoint_recursive fuel' hj ch from target) h (children nd)
      end
  end.

(** One entry of the mount table: [f_mntfromname], [f_mntonname]. *)
Definition mount_entry (rts : list nat) (h : list Node) (e : string * string)
    : option (list Node) :=
  if String.prefix "/dev/" (fst e)
  then loop (λ hr r, set_mountpoint_recursive (budget hr) hr r (str_drop 5 (fst e)) (snd e)) h rts
  else Some h.

(** [None] is a [getmntinfo] that reports no entries. *)
Definition fill_mountpoints (rts : list nat) (h : list Node)
    (mnt : option (list (string * string))) : option (list Node) :=
  match mnt with
  | None => Some h
  | Some entries => loop (mount_entry rts) h entries
  end.

(** ** The metadata enricher ([fill_info]) *)

Definition first_present (a b : option plist) : option plist :=
  match a with
  | Some _ => a
  | None => b
  end.

(** What [fill_info] does to the node, given the answer of
    [diskutil info -plist] ([None]: no answer, or no property list). *)
Definition fill_info_node (info : option plist) (n : Node) : Node :=
  match info with
  | Some (PDict d) =>
      let n1 := set_if_present set_fstype (cfstr (dict_get d "FilesystemType")) n in
      let n2 := set_if_nonempty set_label (cfstr (dict_get d "VolumeName")) n1 in
      let n3 := if String.eqb (label n2) ""
                then set_if_nonempty set_label (cfstr (dict_get d "MediaName")) n2
                else n2 in
      let n4 := set_if_present set_uuid
                  (cfstr (first_present (dict_get d "VolumeUUID") (dict_get d "DiskUUID"))) n3 in
      set_if_nonempty set_mountpoint (cfstr (dict_get d "MountPoint")) n4
  | _ => n
  end.

Definition fill_info (info_src : string → option plist) (h : list Node) (n : nat) : list Node :=
  alter (λ nd, fill_info_node (info_src (name nd)) nd) n h.

(** [for (int i = 0; i < flat.n; i++) fill_info(flat.arr[i]);] *)
Definition fill_info_all (info_src : string → option plist) (h : list Node) : list Node :=
  foldl (fill_info info_src) h (seq 0 (length h)).

(** ** Rendering *)

Definition nl : string := String "010"%char "".
Definition dq : string := String "034"%char "".

Fixpoint header_from (c : nat) (cols : list Col) : string :=
  match cols with
  | [] => ""
  | col :: rest =>
      (match c with O => "" | _ => " " end) +:+ col_names col +:+ header_from (S c) rest
  end.

Definition header (cols : list Col) : string := header_from 0 cols +:+ nl.

(** The [switch] of the tree rows; the loop starts at [c = 1]. *)
Definition tree_cell (nd : Node) (sizebuf : string) (c : Col) : string :=
  match c with
  | COL_NAME => ""
  | COL_SIZE => " " +:+ sizebuf
  | COL_TYPE => " " +:+ type nd
  | COL_MOUNTPOINT => " " +:+ mountpoint nd
  | COL_FSTYPE => " " +:+ fstype nd
  | COL_LABEL => " " +:+ label nd
  | COL_UUID => " " +:+ uuid nd
  end.

Definition str_concat (l : list string) : string := foldr String.append "" l.

Definition tree_cells (nd : Node) (cols : list Col) : string :=
  str_concat (tree_cell nd (fmt_size (size nd) 32) <$> drop 1 cols).

(** A loop that prints: what each iteration printed, one after the other. *)
Fixpoint out_loop {A : Type} (body : nat → A → option string) (i : nat) (l : list A)
    : option string :=
  match l with
  | [] => Some ""
  | x :: l' =>
      match body i x with
      | None => None
      | Some s =>
          match out_loop body (S i) l' with
          | None => None
          | Some s' => Some (s +:+ s')
          end
      end
  end.

Fixpoint print_tree (fuel : nat) (h : list Node) (cols : list Col) (n : nat)
    (prefix : string) (last : bool) : option string :=
  match fuel with
  | O => None
  | S fuel' =>
      match h !! n with
      | None => None
      | Some nd =>
          let child_prefix := snprintf 256 (prefix +:+ (if last then " " else "│") +:+ "  ") in
          out_loop (λ i c,
                      match h !! c with
                      | None => None
                      | Some ch =>
                          let is_last := (i =? length (children nd) - 1)%nat in
                          match print_tree fuel' h cols c child_prefix is_last with
                          | None => None
                          | Some below =>
                              Some (prefix +:+ (if is_last then "└" else "├") +:+ "── "
                                    +:+ name ch +:+ tree_cells ch cols +:+ nl +:+ below)
                          end
                      end)
                   0%nat (children nd)
      end
  end.

(** The tree branch of [main]. *)
Definition print_forest_tree (h : list Node) (rts : list nat) (cols : list Col) : option string :=
  match out_loop (λ i r,
                    match h !! r with
                    | None => None
                    | Some nd =>
                        let last := (i =? length rts - 1)%nat && (length (children nd) =? 0)%nat in
                        match print_tree (budget h) h cols r "  " last with
                        | None => None
                        | Some below => Some (name nd +:+ tree_cells nd cols +:+ nl +:+ below)
                        end
                    end)
                 0%nat rts with
  | None => None
  | Some rows => Some (header cols +:+ rows)
  end.

Definition list_cell (nd : Node) (sizebuf : string) (c : Col) : string :=
  match c with
  | COL_NAME => name nd
  | COL_SIZE => sizebuf
  | COL_TYPE => type nd
  | COL_MOUNTPOINT => mountpoint nd
  | COL_FSTYPE => fstype nd
  | COL_LABEL => label nd
  | COL_UUID => uuid nd
  end.

Fixpoint list_cells_from (c : nat) (nd : Node) (sizebuf : string) (cols : list Col) : string :=
  match cols with
  | [] => ""
  | col :: rest =>
      (match c with O => "" | _ => " " end) +:+ list_cell nd sizebuf col
      +:+ list_cells_from (S c) nd sizebuf rest
  end.

(** In [print_list_dfs] the buffer is a [char *] parameter, so
    [sizeof(sizebuf)] is the size of a pointer: 8. *)
Fixpoint print_list_dfs (fuel : nat) (h : list Node) (cols : list Col) (n : nat)
    : option string :=
  match fuel with
  | O => None
  | S fuel' =>
      match h !! n with
      | None => None
      | Some nd =>
          match out_loop (λ _ c, print_list_dfs fuel' h cols c) 0%nat (children nd) with
          | None => None
          | Some below =>
              Some (list_cells_from 0 nd (fmt_size (size nd) 8) cols +:+ nl +:+ below)
          end
      end
  end.

Definition print_list (h : list Node) (rts : list nat) (cols : list Col) : option string :=
  match out_loop (λ _ r, print_list_dfs (budget h) h cols r) 0%nat rts with
  | None => None
  | Some rows => Some (header cols +:+ rows)
  end.

Definition jfield (k v : string) : string := dq +:+ k +:+ dq +:+ ":" +:+ dq +:+ v +:+ dq.

Fixpoint emit_json (fuel : nat) (h : list Node) (n : nat) (depth : nat) (first : bool)
    : option string :=
  match fuel with
  | O => None
  | S fuel' =>
      match h !! n with
      | None => None
      | Some nd =>
          let obj :=
            (if first then "" else "," +:+ nl) +:+ spaces (depth * 2) +:+ "{"
            +:+ jfield "name" (name nd) +:+ ","
            +:+ dq +:+ "size" +:+ dq +:+ ":" +:+ dec (size nd) +:+ ","
            +:+ jfield "type" (type nd) +:+ ","
            +:+ jfield "mountpoint" (mountpoint nd) +:+ ","
            +:+ jfield "fstype" (fstype nd) +:+ ","
            +:+ jfield "label" (label nd) +:+ ","
            +:+ jfield "uuid" (uuid nd) in
          match children nd with
          | [] => Some (obj +:+ "}")
          | _ =>
              match out_loop (λ i c, emit_json fuel' h c (S depth) (i =? 0)%nat)
                             0%nat (children nd) with
              | None => None
              | Some below =>
                  Some (obj +:+ "," +:+ dq +:+ "children" +:+ dq +:+ ":[" +:+ below
                        +:+ nl +:+ spaces (depth * 2) +:+ "]" +:+ "}")
              end
          end
      end
  end.

Definition print_json (h : list Node) (rts : list nat) : option string :=
  match out_loop (λ i r,
                    match emit_json (budget h) h r 1 true with
                    | None => None
                    | Some s => Some ((match i with O => "" | _ => "," +:+ nl end) +:+ s)
                    end)
                 0%nat rts with
  | None => None
  | Some objs =>
      Some ("{" +:+ dq +:+ "blockdevices" +:+ dq +:+ ":[" +:+ nl +:+ objs +:+ nl +:+ "]}" +:+ nl)
  end.

(** ** Teardown ([node_free]) *)

(** [freed] lists the nodes whose strings were already released.  Entering
    such a node again releases them a second time, which is undefined. *)
Fixpoint node_free (fuel : nat) (h : list Node) (freed : list nat) (n : nat)
    : option (list nat) :=
  match fuel with
  | O => None
  | S fuel' =>
      if decide (n ∈ freed) then None
      else
        match h !! n with
        | None => None
        | Some nd => loop (node_free fuel' h) (n :: freed) (children nd)
        end
  end.

Definition free_forest (h : list Node) (rts : list nat) : option (list nat) :=
  loop (node_free (budget h) h) [] rts.

(** ** [main] *)

Record Options := mkOptions {
  opt_f : bool;
  opt_J : bool;
  opt_list : bool;
  opt_o : option string
}.

(** What the host answers: the parsed output of [diskutil list -plist]
    ([None]: the command or the parser failed), the mount table, the parsed
    output of [diskutil info -plist] per device, and whether [strdup]
    returns memory in [parse_columns]. *)
Record Host := mkHost {
  list_src : option plist;
  mount_src : option (list (string * string));
  info_src : string → option plist;
  strdup_ok : bool
}.

Record Run := mkRun {
  exit_status : Z;
  out : string;
  err : string
}.

Definition get_list_plist (w : Host) : option (list (string * plist)) :=
  match list_src w with
  | Some (PDict d) => Some d
  | _ => None
  end.

Definition render (o : Options) (cols : list Col) (st : Forest) : option string :=
  if opt_J o then print_json (flat st) (roots st)
  else if opt_list o then print_list (flat st) (roots st) cols
  else print_forest_tree (flat st) (roots st) cols.

(** [main] from the fetch of the listing on, with the columns parsed. *)
Definition run_with_columns (cols : list Col) (o : Options) (w : Host) : option Run :=
  match get_list_plist w with
  | None => Some (mkRun 1 "" ("mlsblk: failed to run diskutil list -plist" +:+ nl))
  | Some list_plist =>
      match build_tree list_plist with
      | None => None
      | Some (rc, st) =>
          if negb (rc =? 0)
          then Some (mkRun 1 "" ("mlsblk: failed to parse disk list" +:+ nl))
          else
            match fill_mountpoints (roots st) (flat st) (mount_src w) with
            | None => None
            | Some h1 =>
                let h2 := if opt_f o then fill_info_all (info_src w) h1 else h1 in
                match render o cols (mkForest (roots st) h2) with
                | None => None
                | Some text =>
                    match free_forest h2 (roots st) with
                    | None => None
                    | Some _ => Some (mkRun 0 text "")
                    end
                end
            end
      end
  end.

(** [main] after [getopt]. *)
Definition main (o : Options) (w : Host) : option Run :=
  let '(rc, cols) := parse_output_option (strdup_ok w) (opt_o o) in
  if negb (rc =? 0)
  then Some (mkRun 1 "" ("mlsblk: invalid -o columns" +:+ nl))
  else
    let cols :=
      match opt_f o, opt_o o with
      | true, None =>
          snd (parse_columns (strdup_ok w) "NAME,SIZE,TYPE,FSTYPE,MOUNTPOINT,LABEL,UUID")
      | _, _ => cols
      end in
    run_with_columns cols o w.

(** ** The inputs of the scenarios *)

Definition default_options : Options := mkOptions false false false None.

(** One whole disk with one APFS slice, as [diskutil list -plist] reports it. *)
Definition scenario_listing : plist :=
  PDict [("AllDisksAndPartitions",
          PArray [PDict [("DeviceIdentifier", PString "disk0");
                         ("Size", PInteger 121332826112);
                         ("Content", PString "GUID_partition_scheme");
                         ("Partitions",
                          PArray [PDict [("DeviceIdentifier", PString "disk0s1");
                                         ("Size", PInteger 121213132800);
                                         ("Content", PString "Apple_APFS")]])]])].

(** The forest of the scenario: what the scenario leaves open (labels,
    UUIDs, parent pointers, the mount point of the child before mount
    resolution) is a parameter. *)
Definition scenario_nodes (l0 u0 l1 u1 m1 : string) (p0 p1 : option nat) : Forest :=
  mkForest [0%nat]
    [mkNode "disk0" 121332826112 "disk" "" "" l0 u0 p0 [1%nat];
     mkNode "disk0s1" 121213132800 "part" m1 "apfs" l1 u1 p1 []].

Definition scenario_forest : Forest := scenario_nodes "" "" "" "" "" None (Some 0%nat).

Definition scenario_host : Host :=
  mkHost (Some scenario_listing) (Some [("/dev/disk0s1", "/")]) (λ _, None) true.

Definition lines (l : list string) : string := str_concat ((λ s, s +:+ nl) <$> l).

(** The disks of the ordering law, listed out of order. *)
Definition ordering_listing : list (string * plist) :=
  [("AllDisksAndPartitions",
    PArray [PDict [("DeviceIdentifier", PString "disk10");
                   ("Content", PString "GUID_partition_scheme")];
            PDict [("DeviceIdentifier", PString "disk2");
                   ("Content", PString "GUID_partition_scheme");
                   ("Partitions",
                    PArray [PDict [("DeviceIdentifier", PString "disk2s10")];
                            PDict [("DeviceIdentifier", PString "disk2s9")];
                            PDict [("DeviceIdentifier", PString "disk2s1")]])]])].

(** Two disks whose numbers begin with the same digit, in their order. *)
Definition misordered_listing : list (string * plist) :=
  [("AllDisksAndPartitions",
    PArray [PDict [("DeviceIdentifier", PString "disk12");
                   ("Content", PString "GUID_partition_scheme")];
            PDict [("DeviceIdentifier", PString "disk100");
                   ("Content", PString "GUID_partition_scheme")]])].

(** The names of the roots, and of the children of a node, in their order. *)
Definition root_names (st : Forest) : list string := name_of (flat st) <$> roots st.

Definition child_names (h : list Node) (n : nat) : list string :=
  match h !! n with
  | Some nd => name_of h <$> children nd
  | None => []
  end.

(** The same slice listed twice under one disk, a disk listed among its
    own slices, and one slice listed under two disks. *)
Definition twice_listing : plist :=
  PDict [("AllDisksAndPartitions",
          PArray [PDict [("DeviceIdentifier", PString "disk0");
                         ("Content", PString "GUID_partition_scheme");
                         ("Partitions",
                          PArray [PDict [("DeviceIdentifier", PString "disk0s1")];
                                  PDict [("DeviceIdentifier", PString "disk0s1")]])]])].

Definition self_listing : plist :=
  PDict [("AllDisksAndPartitions",
          PArray [PDict [("DeviceIdentifier", PString "disk0");
                         ("Content", PString "GUID_partition_scheme");
                         ("Partitions",
                          PArray [PDict [("DeviceIdentifier", PString "disk0")]])]])].

Definition shared_listing : plist :=
  PDict [("AllDisksAndPartitions",
          PArray [PDict [("DeviceIdentifier", PString "disk0");
                         ("Content", PString "GUID_partition_scheme");
                         ("Partitions",
                          PArray [PDict [("DeviceIdentifier", PString "disk0s1")]])];
                  PDict [("DeviceIdentifier", PString "disk1");
                         ("Content", PString "GUID_partition_scheme");
                         ("Partitions",
                          PArray [PDict [("DeviceIdentifier", PString "disk0s1")]])]])].

Definition host_of (listing : plist) : Host := mkHost (Some listing) None (λ _, None) true.

Definition built (listing : plist) : option (Z * Forest) :=
  match listing with
  | PDict d => build_tree d
  | _ => None
  end.

Definition children_of (st : Forest) (n : nat) : list nat :=
  match flat st !! n with
  | Some nd => children nd
  | None => []
  end.

(** The columns a [-o] string names, in its order: the tokens that match
    a column name once their leading blanks are gone. *)
Definition recognized (ostr : string) : list Col :=
  omap (λ tok, find_col (skip_spaces tok)) (strtok_all ostr).

(** A volume the mount table puts at /Volumes/Old and whose own report
    says /Volumes/New. *)
Definition volume_listing : plist :=
  PDict [("AllDisksAndPartitions",
          PArray [PDict [("DeviceIdentifier", PString "disk4");
                         ("Size", PInteger 1024);
                         ("Content", PString "GUID_partition_scheme");
                         ("Partitions",
                          PArray [PDict [("DeviceIdentifier", PString "disk4s1");
                                         ("Size", PInteger 512);
                                         ("Content", PString "Apple_HFS")]])]])].

Definition volume_info (mp : option plist) (device : string) : option plist :=
  if String.eqb device "disk4s1"
  then Some (PDict (match mp with
                    | Some v => [("MountPoint", v)]
                    | None => []
                    end))
  else None.

Definition volume_host (mp : option plist) : Host :=
  mkHost (Some volume_listing) (Some [("/dev/disk4s1", "/Volumes/Old")]) (volume_info mp) true.

Definition enrich_options : Options := mkOptions true false true (Some "NAME,MOUNTPOINT").

(** ** Views of the store *)

Definition names (h : list Node) : list string := name <$> h.

(** The child arrays alone: all that the recursion over child pointers
    follows. *)
Definition skeleton (h : list Node) : list (list nat) := children <$> h.

(** Every chain of child pointers from [n] ends within [fuel] nodes. *)
Fixpoint depth_ok (fuel : nat) (sk : list (list nat)) (n : nat) : bool :=
  match fuel with
  | O => false
  | S fuel' =>
      match sk !! n with
      | None => false
      | Some cs => forallb (depth_ok fuel' sk) cs
      end
  end.

(** What one mount entry may do to a node: nothing, or set the mount
    point of a node that carries the identifier. *)
Definition mount_step (id target : string) (nd nd' : Node) : Prop :=
  nd' = nd ∨ (name nd = id ∧ nd' = set_mountpoint target nd).

(** The nodes the walk of [set_mountpoint_recursive] from [n] enters: [n],
    and the children of every node it enters that does not carry the
    identifier. *)
Inductive walked (h : list Node) (id : string) : nat → nat → Prop :=
| walked_here n : walked h id n n
| walked_below n nd c i :
    h !! n = Some nd → name nd ≠ id → c ∈ children nd → walked h id c i →
    walked h id n i.

(** Two roots that carry one identifier. *)
Definition twin_store : list Node :=
  [mkNode "disk1" 0 "disk" "" "" "" "" None [];
   mkNode "disk1" 0 "disk" "" "" "" "" None []].

(** The columns [main] renders with once [parse_output_option] returned 0;
    [-f] without [-o] replaces the default columns by the long list. *)
Definition effective_columns (o : Options) (ok : bool) : list Col :=
  match opt_f o, opt_o o with
  | true, None => snd (parse_columns ok "NAME,SIZE,TYPE,FSTYPE,MOUNTPOINT,LABEL,UUID")
  | _, _ => snd (parse_output_option ok (opt_o o))
  end.

Definition no_info : string → option plist := λ _, None.

(** ** Views of the listing *)

(** The identifier of an entry, when it is a dictionary that has one. *)
Definition entry_id (d : plist) : option string :=
  match d with
  | PDict e => cfstr (dict_get e "DeviceIdentifier")
  | _ => None
  end.

(** The identifiers of the top-level entries, in the order of the listing. *)
Definition top_ids (all : list plist) : list string := omap entry_id all.

(** The top-level entries that have an identifier; the first 64 of them
    are the ones [collect_nodes] makes roots and looks into. *)
Definition identified (all : list plist) : list plist :=
  filter (λ d, is_Some (entry_id d)) all.

Definition rooted (all : list plist) : list plist := take 64 (identified all).

Definition nested_entries (d : plist) : list plist :=
  match d with
  | PDict e => sub_array (dict_get e "Partitions") ++ sub_array (dict_get e "APFSVolumes")
  | _ => []
  end.

Definition nested_ids (d : plist) : list string := omap entry_id (nested_entries d).

(** The identifiers below the entries that became roots. *)
Definition attached_ids (all : list plist) : list string := rooted all ≫= nested_ids.

(** Every identifier the builder meets. *)
Definition listed_ids (all : list plist) : list string := top_ids all ++ attached_ids all.

(** The store holds one node per identifier of [ids], and every child
    pointer leads to a node whose identifier is in [allowed]. *)
Definition indexed (ids allowed : list string) (h : list Node) : Prop :=
  NoDup (names h)
  ∧ (∀ x, x ∈ names h ↔ x ∈ ids)
  ∧ (∀ nd c, nd ∈ h → c ∈ children nd → ∃ cn, h !! c = Some cn ∧ name cn ∈ allowed).

(** The same nodes with their child arrays in another order. *)
Definition reordered (h h' : list Node) : Prop :=
  Forall2 (λ nd nd', name nd' = name nd ∧ children nd' ≡ₚ children nd) h h'.

(** A listing with [n] whole disks disk0, disk1, ... *)
Definition disk_entry (i : nat) : plist :=
  PDict [("DeviceIdentifier", PString ("disk" +:+ dec (Z.of_nat i)));
         ("Content", PString "GUID_partition_scheme")].

Definition many_disks (n : nat) : list (string * plist) :=
  [("AllDisksAndPartitions", PArray (disk_entry <$> seq 0 n))].

(** What holds of the builder's state once it went through the entries
    [pre]: the index, the validity of the root pointers, and the names of
    the roots. *)
Definition collected (pre : list plist) (st : Forest) : Prop :=
  indexed (listed_ids pre) (attached_ids pre) (flat st)
  ∧ Forall (λ r, is_Some (flat st !! r)) (roots st)
  ∧ root_names st = take 64 (top_ids pre).

(** One mount entry went from [h] to [h']. *)
Definition mount_only (id target : string) (h h' : list Node) : Prop :=
  Forall2 (mount_step id target) h h'.

(** What a walk from [n] does: it changes mount points of nodes that
    carry the identifier only, it reaches every such node it enters,
    and it changes nothing it does not enter. *)
Definition walk_spec (id target : string) (h : list Node) (n : nat) (h' : list Node) : Prop :=
  mount_only id target h h'
  ∧ (∀ i nd, walked h id n i → h !! i = Some nd → name nd = id →
             mountpoint <$> h' !! i = Some target)
  ∧ (∀ i, h' !! i = h !! i ∨ walked h id n i).

(** A loop of walks over an array of nodes. *)
Definition walks_spec (id target : string) (h : list Node) (l : list nat) (h' : list Node)
    : Prop :=
  mount_only id target h h'
  ∧ (∀ c i nd, c ∈ l → walked h id c i → h !! i = Some nd → name nd = id →
               mountpoint <$> h' !! i = Some target)
  ∧ (∀ i, h' !! i = h !! i ∨ ∃ c, c ∈ l ∧ walked h id c i).

(** An APFS container as a top-level entry. *)
Definition container_listing : plist :=
  PDict [("AllDisksAndPartitions",
          PArray [PDict [("DeviceIdentifier", PString "disk3");
                         ("Content", PString "Apple_APFS_Container")]])].

(** ** Forests *)

(** The roots and child arrays form a forest of depth two: the roots are
    distinct and in range, no child array repeats a node, no node is in
    two child arrays, and a child is no root and has no children. *)
Definition shaped (rts : list nat) (sk : list (list nat)) : Prop :=
  NoDup rts
  ∧ Forall (λ r, r < length sk)%nat rts
  ∧ (∀ i cs, sk !! i = Some cs → NoDup cs)
  ∧ (∀ i j ci cj c, sk !! i = Some ci → sk !! j = Some cj → c ∈ ci → c ∈ cj → i = j)
  ∧ (∀ i cs c, sk !! i = Some cs → c ∈ cs → (c ∉ rts) ∧ sk !! c = Some []).

(** A listing the builder can take: no identifier occurs twice among the
    identifiers it meets, and the entries below the entries that become
    roots are dictionaries. *)
Definition well_listed (all : list plist) : Prop :=
  NoDup (listed_ids all)
  ∧ ∀ d e, d ∈ rooted all → e ∈ nested_entries d → ∃ kv, e = PDict kv.

(** The names in the index are the identifiers [ids]. *)
Definition named (ids : list string) (h : list Node) : Prop :=
  ∀ x, x ∈ names h ↔ x ∈ ids.

(** Every entry below a top-level entry is a dictionary. *)
Definition nested_dicts (all : list plist) : Prop :=
  ∀ d e, d ∈ all → e ∈ nested_entries d → ∃ kv, e = PDict kv.

(** ** The text of a forest of depth two *)

(** The node at a place of the store; the places of a forest are in range. *)
Definition node_at (h : list Node) (n : nat) : Node :=
  default (node_create "" 0 "") (h !! n).

(** The row of the child at the place [i] of [count] children of a root. *)
Definition tree_child_row (h : list Node) (cols : list Col) (count i c : nat) : string :=
  "  " +:+ (if (i =? count - 1)%nat then "└" else "├") +:+ "── "
  +:+ name (node_at h c) +:+ tree_cells (node_at h c) cols +:+ nl.

(** The rows of a root in the tree format: its own, then those of its
    children. *)
Definition tree_root_rows (h : list Node) (cols : list Col) (r : nat) : string :=
  name (node_at h r) +:+ tree_cells (node_at h r) cols +:+ nl
  +:+ str_concat (imap (tree_child_row h cols (length (children (node_at h r))))
                       (children (node_at h r))).

Definition tree_text (h : list Node) (rts : list nat) (cols : list Col) : string :=
  header cols +:+ str_concat (tree_root_rows h cols <$> rts).

(** A row of the list format, followed by [below]. *)
Definition list_row (h : list Node) (cols : list Col) (n : nat) (below : string) : string :=
  list_cells_from 0 (node_at h n) (fmt_size (size (node_at h n)) 8) cols +:+ nl +:+ below.

Definition list_root_rows (h : list Node) (cols : list Col) (r : nat) : string :=
  list_row h cols r (str_concat ((λ c, list_row h cols c "") <$> children (node_at h r))).

Definition list_text (h : list Node) (rts : list nat) (cols : list Col) : string :=
  header cols +:+ str_concat (list_root_rows h cols <$> rts).

(** A JSON object up to its last field: every field is there, an empty
    one as a pair of quotes. *)
Definition json_open (first : bool) (nd : Node) (depth : nat) : string :=
  (if first then "" else "," +:+ nl) +:+ spaces (depth * 2) +:+ "{"
  +:+ jfield "name" (name nd) +:+ ","
  +:+ dq +:+ "size" +:+ dq +:+ ":" +:+ dec (size nd) +:+ ","
  +:+ jfield "type" (type nd) +:+ ","
  +:+ jfield "mountpoint" (mountpoint nd) +:+ ","
  +:+ jfield "fstype" (fstype nd) +:+ ","
  +:+ jfield "label" (label nd) +:+ ","
  +:+ jfield "uuid" (uuid nd).

Definition json_root (h : list Node) (i r : nat) : string :=
  (match i with O => "" | _ => "," +:+ nl end)
  +:+ match children (node_at h r) with
      | [] => json_open true (node_at h r) 1 +:+ "}"
      | cs =>
          json_open true (node_at h r) 1 +:+ "," +:+ dq +:+ "children" +:+ dq +:+ ":["
          +:+ str_concat (imap (λ j c, json_open (j =? 0)%nat (node_at h c) 2 +:+ "}") cs)
          +:+ nl +:+ spaces (1 * 2) +:+ "]" +:+ "}"
      end.

Definition json_text (h : list Node) (rts : list nat) : string :=
  "{" +:+ dq +:+ "blockdevices" +:+ dq +:+ ":[" +:+ nl
  +:+ str_concat (imap (json_root h) rts) +:+ nl +:+ "]}" +:+ nl.

(** What [main] prints for a forest of depth two. *)
Definition forest_text (o : Options) (cols : list Col) (st : Forest) : string :=
  if opt_J o then json_text (flat st) (roots st)
  else if opt_list o then list_text (flat st) (roots st) cols
  else tree_text (flat st) (roots st) cols.

(** A string between double quotes. *)
Definition quoted (s : string) : string := dq +:+ s +:+ dq.

(** * Properties *)

(** ** Strings *)

Lemma str_app_cons c (a b : string) : String c a +:+ b = String c (a +:+ b).
Proof. reflexivity. Qed.

Lemma str_app_assoc (a b c : string) : (a +:+ b) +:+ c = a +:+ (b +:+ c).
Proof. induction a as [|x a IH]; [done|]. by rewrite !str_app_cons, IH. Qed.

(** ** The comparator *)

Lemma strtoul_from_length acc p :
  (String.length (snd (strtoul_from acc p)) ≤ String.length p)%nat.
Proof.
  revert acc. induction p as [|c t IH]; intros acc; simpl; [lia|].
  destruct (is_digit c); simpl; [|lia].
  specialize (IH (Z.min ULONG_MAX (acc * 10 + (uc c - 48)))). lia.
Qed.

Lemma strtoul_digit_length c t :
  is_digit c = true →
  (String.length (snd (strtoul (String c t))) ≤ String.length t)%nat.
Proof.
  intros Hd. unfold strtoul. simpl. rewrite Hd. apply strtoul_from_length.
Qed.

(** The budget [name_cmp] gives the loop is enough: the loop returns. *)
Lemma name_cmp_loop_returns fuel pa pb :
  (String.length pa < fuel)%nat → is_Some (name_cmp_loop fuel pa pb).
Proof.
  revert pa pb. induction fuel as [|fuel IH]; intros pa pb Hlen; [lia|].
  destruct pa as [|ca ta], pb as [|cb tb]; simpl; eauto.
  simpl in Hlen.
  destruct (Ascii.eqb ca cb); [apply IH; lia|].
  destruct (Ascii.eqb ca "s" && Ascii.eqb cb "s"); [apply IH; lia|].
  destruct (Ascii.eqb ca "s"); [eauto|].
  destruct (Ascii.eqb cb "s"); [eauto|].
  destruct (is_digit ca) eqn:Hda; simpl; [|eauto].
  destruct (is_digit cb) eqn:Hdb; simpl; [|eauto].
  pose proof (strtoul_digit_length ca ta Hda) as Hla.
  destruct (strtoul (String ca ta)) as [na pa'].
  destruct (strtoul (String cb tb)) as [nb pb'].
  destruct (negb (na =? nb)); [eauto|].
  apply IH. simpl in Hla. lia.
Qed.

(** [name_cmp] returns what its loop returns. *)
Lemma name_cmp_returns a b :
  name_cmp_loop (S (String.length (skip_disk a))) (skip_disk a) (skip_disk b)
  = Some (name_cmp a b).
Proof.
  unfold name_cmp.
  destruct (name_cmp_loop_returns (S (String.length (skip_disk a))) (skip_disk a) (skip_disk b))
    as [z ->]; [lia|done].
Qed.

(** Where the two strings first differ in two digits, the digit runs that
    start there decide by their values. *)
Lemma name_cmp_loop_digit_runs fuel ca ta cb tb :
  ca ≠ cb → is_digit ca = true → is_digit cb = true →
  fst (strtoul (String ca ta)) ≠ fst (strtoul (String cb tb)) →
  name_cmp_loop (S fuel) (String ca ta) (String cb tb)
  = Some (if fst (strtoul (String ca ta)) <? fst (strtoul (String cb tb)) then -1 else 1).
Proof.
  intros Hne Hda Hdb Hrun.
  assert (Hs : ∀ c, is_digit c = true → Ascii.eqb c "s" = false).
  { intros c Hc. apply Ascii.eqb_neq. intros ->. vm_compute in Hc. discriminate. }
  cbn [name_cmp_loop].
  apply Ascii.eqb_neq in Hne. rewrite Hne, (Hs ca Hda), (Hs cb Hdb), Hda, Hdb.
  cbn [andb].
  destruct (strtoul (String ca ta)) as [na pa'].
  destruct (strtoul (String cb tb)) as [nb pb'].
  cbn [fst] in *.
  destruct (Z.eqb_spec na nb) as [|_]; [contradiction|]. cbn [negb].
  f_equal. destruct (Z.ltb_spec na nb), (Z.gtb_spec na nb); simpl; lia.
Qed.

(** The runs compared are those that start at the first difference: after
    the common 1 of disk12 and disk100 the loop compares 2 with 00. *)
Example name_cmp_after_common_digits :
  name_cmp "disk12" "disk100" = 1 ∧ name_cmp "disk19" "disk100" = 1
  ∧ name_cmp "disk1" "disk10" < 0 ∧ name_cmp "disk109" "disk110" = -1.
Proof. by vm_compute. Qed.

(** ** [qsort] permutes *)

Lemma qsort_insert_perm {A} (cmp : A → A → Z) x l : qsort_insert cmp x l ≡ₚ x :: l.
Proof.
  induction l as [|y l IH]; simpl; [done|].
  destruct (0 <? cmp y x); [|done].
  rewrite IH. apply Permutation_swap.
Qed.

Lemma qsort_perm {A} (cmp : A → A → Z) l : qsort cmp l ≡ₚ l.
Proof.
  unfold qsort. rewrite reverse_Permutation.
  assert (Hgen : ∀ run, foldl (λ run x, qsort_insert cmp x run) run l ≡ₚ run ++ l).
  { induction l as [|x l IH]; intros run; simpl; [by rewrite app_nil_r|].
    rewrite IH, qsort_insert_perm. simpl. apply Permutation_middle. }
  apply Hgen.
Qed.

(** ** C3: the ordering law *)

(** On the identifiers of the ordering law the comparator gives the
    natural order, and a listing that names them out of order is built
    into a forest that has them in order. *)
Example ordering_law_identifiers :
  name_cmp "disk2" "disk10" < 0 ∧ name_cmp "disk10" "disk2" > 0
  ∧ name_cmp "disk2s1" "disk2s9" < 0 ∧ name_cmp "disk2s9" "disk2s10" < 0
  ∧ name_cmp "disk2s1" "disk2s10" < 0 ∧ name_cmp "disk2s10" "disk2s9" > 0
  ∧ qsort name_cmp ["disk2s10"; "disk10"; "disk2s9"; "disk2"; "disk2s1"]
    = ["disk2"; "disk2s1"; "disk2s9"; "disk2s10"; "disk10"]
  ∧ (∃ st, build_tree ordering_listing = Some (0, st)
           ∧ root_names st = ["disk2"; "disk10"]
           ∧ ∀ r, name_of (flat st) r = "disk2" →
                  child_names (flat st) r = ["disk2s1"; "disk2s9"; "disk2s10"]).
Proof.
  do 6 (split; [by vm_compute|]).
  split; [by vm_compute|].
  eexists. split; [vm_compute; reflexivity|].
  split; [reflexivity|].
  intros [|[|[|[|[|r]]]]]; vm_compute; intros; congruence.
Qed.

(** A budget that lets the loop return can be raised. *)
Lemma name_cmp_loop_more fuel fuel' pa pb z :
  name_cmp_loop fuel pa pb = Some z → (fuel ≤ fuel')%nat →
  name_cmp_loop fuel' pa pb = Some z.
Proof.
  revert fuel' pa pb. induction fuel as [|fuel IH]; intros fuel' pa pb Hz Hle; [done|].
  destruct fuel' as [|fuel']; [lia|].
  assert (Hle' : (fuel ≤ fuel')%nat) by lia.
  destruct pa as [|ca ta], pb as [|cb tb]; cbn [name_cmp_loop] in *; try done.
  destruct (Ascii.eqb ca cb); [by apply IH|].
  destruct (Ascii.eqb ca "s" && Ascii.eqb cb "s"); [by apply IH|].
  destruct (Ascii.eqb ca "s"); [done|].
  destruct (Ascii.eqb cb "s"); [done|].
  destruct (is_digit ca && is_digit cb); [|done].
  destruct (strtoul (String ca ta)) as [na pa'].
  destruct (strtoul (String cb tb)) as [nb pb'].
  destruct (negb (na =? nb)); [done|]. by apply IH.
Qed.

Lemma skip_disk_disk s : skip_disk ("disk" +:+ s) = s.
Proof. by destruct s. Qed.

(** Bytes the two names have in common at their start are passed over,
    digits among them. *)
Lemma name_cmp_loop_common fuel p x y :
  name_cmp_loop (String.length p + fuel) (p +:+ x) (p +:+ y) = name_cmp_loop fuel x y.
Proof.
  induction p as [|c p IH]; [done|].
  rewrite !str_app_cons. cbn [String.length Nat.add name_cmp_loop].
  by rewrite Ascii.eqb_refl.
Qed.

Lemma name_cmp_common p x y :
  name_cmp ("disk" +:+ p +:+ x) ("disk" +:+ p +:+ y) = name_cmp ("disk" +:+ x) ("disk" +:+ y).
Proof.
  pose proof (name_cmp_returns ("disk" +:+ p +:+ x) ("disk" +:+ p +:+ y)) as Hl.
  pose proof (name_cmp_returns ("disk" +:+ x) ("disk" +:+ y)) as Hr.
  rewrite !skip_disk_disk in Hl, Hr.
  rewrite <- (name_cmp_loop_common _ p) in Hr.
  set (k := (S (String.length (p +:+ x)) + (String.length p + S (String.length x)))%nat).
  apply (name_cmp_loop_more _ k) in Hl; [|lia].
  apply (name_cmp_loop_more _ k) in Hr; [|lia].
  congruence.
Qed.

(** C3. [name_cmp] passes over the bytes the two names have in common,
    digits among them, before it looks for digit runs: the result is the
    one for what is left of the names. The runs it compares by value are
    therefore the numbers without their common leading digits, and of 12
    and 100 it compares 2 with 00: disk12 is placed after disk100, and so
    is the slice 12 after the slice 100 of one disk. The comparator is not
    transitive, disk100 being before disk19, disk19 before disk20 and
    disk20 before disk100, and [build_tree] returns the disks disk12 and
    disk100 with disk100 first. *)
Theorem name_cmp_common_digits_misordered :
  (∀ p x y, name_cmp ("disk" +:+ p +:+ x) ("disk" +:+ p +:+ y)
            = name_cmp ("disk" +:+ x) ("disk" +:+ y))
  ∧ (∀ p, name_cmp ("disk" +:+ p +:+ "12") ("disk" +:+ p +:+ "100") = 1
          ∧ name_cmp ("disk" +:+ p +:+ "100") ("disk" +:+ p +:+ "12") = -1)
  ∧ (name_cmp "disk100" "disk19" < 0 ∧ name_cmp "disk19" "disk20" < 0
     ∧ name_cmp "disk20" "disk100" < 0)
  ∧ (∃ st, build_tree misordered_listing = Some (0, st)
           ∧ root_names st = ["disk100"; "disk12"]).
Proof.
  split; [apply name_cmp_common|].
  split; [intros p; by rewrite !name_cmp_common|].
  split; [by vm_compute|].
  eexists. split; [vm_compute; reflexivity|]. reflexivity.
Qed.

(** ** C2: the content rules *)

Lemma prefix_app p s : String.prefix p s = true ↔ ∃ post, s = p +:+ post.
Proof.
  revert s. induction p as [|c p IH]; intros [|d s]; simpl.
  - split; [intros _; by exists ""%string|done].
  - split; [intros _; by exists (String d s)|done].
  - split; [done|intros [? ?]; done].
  - destruct (ascii_dec c d) as [->|Hne].
    + rewrite IH. split; intros [post Heq]; exists post;
        rewrite str_app_cons in *; congruence.
    + split; [done|]. intros [post Heq]. rewrite str_app_cons in Heq. congruence.
Qed.

Lemma strstr_app hay needle :
  strstr hay needle = true ↔ ∃ pre post, hay = pre +:+ needle +:+ post.
Proof.
  induction hay as [|c hay IH]; cbn [strstr].
  - rewrite orb_false_r, prefix_app. split.
    + intros [post ->]. by exists ""%string, post.
    + intros [[|d pre] [post Heq]]; [by exists post|done].
  - rewrite orb_true_iff, prefix_app, IH. split.
    + intros [[post ->]|[pre [post ->]]]; [by exists ""%string, post|by exists (String c pre), post].
    + intros [[|d pre] [post Heq]].
      * left. by exists post.
      * right. exists pre, post. rewrite str_app_cons in Heq. congruence.
Qed.

(** A marker found inside a marker is found wherever the larger one is. *)
Lemma strstr_trans hay needle inner :
  strstr hay needle = true → strstr needle inner = true → strstr hay inner = true.
Proof.
  rewrite !strstr_app. intros [pre [post ->]] [pre' [post' ->]].
  exists (pre +:+ pre'), (post' +:+ post). by rewrite !str_app_assoc.
Qed.

Lemma str_take_length n s : (String.length (str_take n s) ≤ n)%nat.
Proof.
  revert s. induction n as [|n IH]; intros [|c s]; simpl; try lia.
  specialize (IH s). lia.
Qed.

Lemma str_take_all n s : (String.length s ≤ n)%nat → str_take n s = s.
Proof.
  revert s. induction n as [|n IH]; intros [|c s]; simpl; intros Hlen; try done; try lia.
  rewrite IH; [done|lia].
Qed.

(** One branch of the rule chain: every conjunct either holds by
    computation or has a premise the branch contradicts. *)
Ltac rule_case Hcont :=
  repeat split; try done; intros; destruct_and?; destruct_or?;
  try congruence; try (rewrite !elem_of_cons; tauto);
  try match goal with
      | H : strstr _ "Apple_APFS_Container" = true |- _ => apply Hcont in H; congruence
      end.

(** C2, the claim at the APFS container marker and at a content that holds
    a partition-scheme marker and a file system signature: neither is
    mapped to the empty string, and the node of a listed container shows
    apfs. *)
Lemma container_marker_maps_to_apfs :
  content_to_fstype (Some "Apple_APFS_Container") 64 ≠ ""
  ∧ content_to_fstype (Some "Apple_APFS_Container") 64 = "apfs"
  ∧ content_to_fstype (Some "GUID_partition_scheme EFI") 64 = "vfat"
  ∧ (snd <$> built container_listing)
    = Some (mkForest [0%nat] [mkNode "disk3" 0 "disk" "" "apfs" "" "" None []]).
Proof. by vm_compute. Qed.

(** C2 as amended. The file system signatures are tried first, in the
    order APFS (or 41504653), HFS, EFI (or C12A7328), and give apfs, hfs,
    vfat; the APFS container marker holds the APFS signature and gives
    apfs. The partition-scheme marker GUID_partition_scheme is tried after
    them and gives the empty string exactly when no signature is present.
    Any other content is passed through, cut to 31 bytes; a missing
    content gives the empty string. *)
Theorem content_to_fstype_rule_order (c : string) :
  let r := content_to_fstype (Some c) 64 in
  (strstr c "Apple_APFS_Container" = true → r = "apfs")
  ∧ (strstr c "APFS" = true ∨ strstr c "41504653" = true → r = "apfs")
  ∧ (strstr c "APFS" = false → strstr c "41504653" = false →
     strstr c "HFS" = true → r = "hfs")
  ∧ (strstr c "APFS" = false → strstr c "41504653" = false → strstr c "HFS" = false →
     strstr c "EFI" = true ∨ strstr c "C12A7328" = true → r = "vfat")
  ∧ (strstr c "GUID_partition_scheme" = true →
     r ∈ ["apfs"; "hfs"; "vfat"; ""]
     ∧ (r = "" ↔ strstr c "APFS" = false ∧ strstr c "41504653" = false
                 ∧ strstr c "HFS" = false ∧ strstr c "EFI" = false
                 ∧ strstr c "C12A7328" = false))
  ∧ (strstr c "APFS" = false → strstr c "41504653" = false → strstr c "HFS" = false →
     strstr c "EFI" = false → strstr c "C12A7328" = false →
     strstr c "GUID_partition_scheme" = false →
     r = str_take 31 c ∧ (String.length r ≤ 31)%nat)
  ∧ content_to_fstype None 64 = "".
Proof.
  assert (Hhfs : strstr c "Apple_HFS" = true → strstr c "HFS" = true).
  { intros H. by apply (strstr_trans _ _ _ H). }
  assert (Hcont : strstr c "Apple_APFS_Container" = true → strstr c "APFS" = true).
  { intros H. by apply (strstr_trans _ _ _ H). }
  cbn zeta. unfold content_to_fstype.
  destruct (strstr c "APFS") eqn:Ha; cbn [orb]; [rule_case Hcont|].
  destruct (strstr c "41504653") eqn:Hb; cbn [orb]; [rule_case Hcont|].
  destruct (strstr c "HFS") eqn:Hh; cbn [orb]; [rule_case Hcont|].
  assert (strstr c "Apple_HFS" = false) as ->.
  { destruct (strstr c "Apple_HFS"); [by specialize (Hhfs eq_refl)|done]. }
  destruct (strstr c "EFI") eqn:He; cbn [orb]; [rule_case Hcont|].
  destruct (strstr c "C12A7328") eqn:Hc; cbn [orb]; [rule_case Hcont|].
  destruct (strstr c "GUID_partition_scheme") eqn:Hg; [rule_case Hcont|].
  assert (Hr : snprintf 64 (str_take 31 c) = str_take 31 c).
  { unfold snprintf. apply str_take_all. pose proof (str_take_length 31 c). lia. }
  rewrite Hr. rule_case Hcont. apply str_take_length.
Qed.

(** The container marker holds the APFS signature. *)
Lemma content_to_fstype_rule_order_witness :
  content_to_fstype (Some "Apple_APFS_Container") 64 = "apfs".
Proof.
  apply (proj1 (content_to_fstype_rule_order "Apple_APFS_Container")). reflexivity.
Defined.

(** ** C1: the tree of the scenario *)

(** C1, the claim as stated: the row of the root is not
    [disk0 113.0G disk]. *)
Lemma scenario_root_row_differs :
  out <$> main default_options scenario_host
  ≠ Some (lines ["NAME SIZE TYPE MOUNTPOINT";
                 "disk0 113.0G disk";
                 "  └── disk0s1 112.9G part /"]).
Proof. by vm_compute. Qed.

(** C1 as amended. For a listing that builds the forest of the scenario
    (root disk0, a disk of 121332826112 bytes without fstype, with the one
    child disk0s1, a partition of 121213132800 bytes with fstype apfs) and
    a mount table that maps /dev/disk0s1 to /, the tree with the default
    columns is three lines: the header, the row of the root, which ends in
    the blank that separates its empty MOUNTPOINT, and the row of the
    child. The sizes are scaled by 1024 and printed with one decimal. *)
Theorem scenario_tree_output (d : list (string * plist)) (info : string → option plist)
    (l0 u0 l1 u1 m1 : string) (p0 p1 : option nat) :
  build_tree d = Some (0, scenario_nodes l0 u0 l1 u1 m1 p0 p1) →
  main default_options (mkHost (Some (PDict d)) (Some [("/dev/disk0s1", "/")]) info true)
  = Some (mkRun 0
            (lines ["NAME SIZE TYPE MOUNTPOINT";
                    "disk0 113.0G disk ";
                    "  └── disk0s1 112.9G part /"])
            "")
  ∧ fmt_size 121332826112 32 = "113.0G"
  ∧ fmt_size 121213132800 32 = "112.9G"
  ∧ 121332826112 = 113 * 1024 ^ 3.
Proof.
  intros Hbuild. split; [|by vm_compute].
  unfold main, run_with_columns, get_list_plist. cbn [list_src opt_o default_options strdup_ok].
  rewrite Hbuild. by vm_compute.
Qed.

(** The listing of the scenario builds its forest and prints the three lines. *)
Lemma scenario_tree_output_witness :
  built scenario_listing = Some (0, scenario_forest)
  ∧ main default_options scenario_host
    = Some (mkRun 0
              (lines ["NAME SIZE TYPE MOUNTPOINT";
                      "disk0 113.0G disk ";
                      "  └── disk0s1 112.9G part /"])
              "").
Proof.
  split; [by vm_compute|].
  apply (scenario_tree_output _ (λ _, None) "" "" "" "" "" None (Some 0%nat)). by vm_compute.
Defined.

(** ** C5: the shape of the built forest *)

Lemma out_loop_None {A} (body : nat → A → option string) l i x :
  x ∈ l → (∀ j, body j x = None) → out_loop body i l = None.
Proof.
  revert i. induction l as [|y l IH]; intros i Hx Hbody; [by apply elem_of_nil in Hx|].
  simpl. apply elem_of_cons in Hx as [->|Hx]; [by rewrite Hbody|].
  destruct (body i y); [|done]. by rewrite (IH (S i)).
Qed.

(** The tree printer does not return from a node that is its own child,
    whatever the depth it is allowed. *)
Lemma print_tree_own_child fuel h cols n nd prefix last :
  h !! n = Some nd → n ∈ children nd → print_tree fuel h cols n prefix last = None.
Proof.
  intros Hn Hc. revert prefix last. induction fuel as [|fuel IH]; intros prefix last; [done|].
  simpl. rewrite Hn. apply (out_loop_None _ _ _ n Hc). intros j. by rewrite Hn, IH.
Qed.

(** C5. [add_partition] attaches the node it gets from [ensure_node] without
    looking whether the node has a parent already. A slice listed twice
    under one disk is twice in the child array of the disk, and the
    teardown releases it twice; a disk listed among its own slices is its
    own child and parent, and the tree printer does not return; a slice
    listed under two disks is in both child arrays and is released twice.
    None of this depends on the depth allowed to the recursion. *)
Theorem repeated_identifier_breaks_forest :
  (∃ st, built twice_listing = Some (0, st)
         ∧ roots st = [0%nat] ∧ children_of st 0 = [1%nat; 1%nat]
         ∧ render default_options [COL_NAME] st
           = Some (lines ["NAME"; "disk0"; "  ├── disk0s1"; "  └── disk0s1"])
         ∧ (∀ fuel, loop (node_free fuel (flat st)) [] (roots st) = None)
         ∧ main default_options (host_of twice_listing) = None)
  ∧ (∃ st, built self_listing = Some (0, st)
           ∧ roots st = [0%nat] ∧ children_of st 0 = [0%nat]
           ∧ parent <$> flat st !! 0%nat = Some (Some 0%nat)
           ∧ (∀ fuel cols prefix last, print_tree fuel (flat st) cols 0 prefix last = None)
           ∧ main default_options (host_of self_listing) = None)
  ∧ (∃ st, built shared_listing = Some (0, st)
           ∧ roots st = [0; 2]%nat
           ∧ children_of st 0 = [1%nat] ∧ children_of st 2 = [1%nat]
           ∧ parent <$> flat st !! 1%nat = Some (Some 2%nat)
           ∧ (∀ fuel, loop (node_free fuel (flat st)) [] (roots st) = None)
           ∧ main default_options (host_of shared_listing) = None).
Proof.
  split; [|split]; eexists; (split; [by vm_compute|]).
  - do 3 (split; [by vm_compute|]). split; [|by vm_compute].
    intros [|[|fuel]]; reflexivity.
  - do 3 (split; [by vm_compute|]). split; [|by vm_compute].
    intros fuel cols prefix last. eapply print_tree_own_child; [reflexivity|].
    by apply list_elem_of_singleton.
  - do 4 (split; [by vm_compute|]). split; [|by vm_compute].
    intros [|[|fuel]]; reflexivity.
Qed.

(** ** C10: unknown column names *)

Lemma parse_tokens_spec toks cols :
  (length cols ≤ 32)%nat →
  parse_tokens toks cols
  = let all := cols ++ omap (λ tok, find_col (skip_spaces tok)) toks in
    if (length all <=? 32)%nat then (0, all) else (-1, take 32 all).
Proof.
  revert cols. induction toks as [|tok rest IH]; intros cols Hlen; cbn [parse_tokens omap list_omap].
  - cbn zeta. rewrite app_nil_r.
    destruct (Nat.leb_spec (length cols) 32); [done|lia].
  - destruct (find_col (skip_spaces tok)) as [c|] eqn:Hc; [|by apply IH].
    destruct (Nat.leb_spec 32 (length cols)) as [Hfull|Hroom].
    + cbn zeta. assert (length cols = 32%nat) as Heq by lia.
      destruct (Nat.leb_spec (length (cols ++ c :: omap (λ tok0, find_col (skip_spaces tok0)) rest)) 32)
        as [Hle|_].
      * rewrite length_app in Hle. simpl in Hle. lia.
      * by rewrite take_app_length' by done.
    + rewrite IH by (rewrite length_app; simpl; lia).
      cbn zeta. by rewrite <- app_assoc.
Qed.

Lemma find_col_Some tok c : find_col tok = Some c ↔ strcasecmp_eq tok (col_names c) = true.
Proof.
  split.
  - intros H. by apply find_some in H as [_ ?].
  - unfold find_col, strcasecmp_eq. intros H%String.eqb_eq.
    cbn [List.find all_cols]. unfold strcasecmp_eq. rewrite H.
    by destruct c; vm_compute.
Qed.

Lemma find_col_None tok : find_col tok = None ↔ ∀ c, strcasecmp_eq tok (col_names c) = false.
Proof.
  split.
  - intros H c. apply (find_none _ _ H). destruct c; simpl; tauto.
  - intros H. destruct (find_col tok) as [c|] eqn:Hc; [|done].
    apply find_col_Some in Hc. by rewrite H in Hc.
Qed.

(** Past the column check no path of [main] prints the column diagnostic. *)
Lemma run_with_columns_other_message cols o w :
  run_with_columns cols o w ≠ Some (mkRun 1 "" ("mlsblk: invalid -o columns" +:+ nl)).
Proof.
  unfold run_with_columns. repeat case_match; try discriminate.
Qed.

Lemma parse_columns_recognized ostr :
  parse_columns true ostr
  = if (length (recognized ostr) <=? 32)%nat
    then (0, recognized ostr) else (-1, take 32 (recognized ostr)).
Proof. unfold parse_columns, recognized. by rewrite parse_tokens_spec by (simpl; lia). Qed.

(** C10. A token of the [-o] list that equals none of the seven column
    names, case ignored, is skipped; parsing returns 0 with the recognized
    columns in order unless there are more than 32 of them, and -1 also
    when [strdup] fails, and [main] prints the column diagnostic in these
    two cases only; a list without a recognized name gives the empty
    projection, and [main] goes on to fetch and render with it. *)
Theorem parse_columns_skips_unknown (ostr : string) :
  (parse_columns true ostr
   = if (length (recognized ostr) <=? 32)%nat
     then (0, recognized ostr) else (-1, take 32 (recognized ostr)))
  ∧ (∀ tok, find_col tok = None ↔ ∀ c, strcasecmp_eq tok (col_names c) = false)
  ∧ (∀ tok c, find_col tok = Some c ↔ strcasecmp_eq tok (col_names c) = true)
  ∧ parse_columns false ostr = (-1, [])
  ∧ (∀ o w, main o w = Some (mkRun 1 "" ("mlsblk: invalid -o columns" +:+ nl)) →
            strdup_ok w = false
            ∨ ∃ s, opt_o o = Some s ∧ s ≠ "" ∧ (32 < length (recognized s))%nat)
  ∧ (recognized ostr = [] →
     parse_columns true ostr = (0, [])
     ∧ ∀ o w, opt_o o = Some ostr → ostr ≠ "" → strdup_ok w = true →
              main o w = run_with_columns [] o w).
Proof.
  pose proof (parse_columns_recognized ostr) as Hparse.
  split; [done|]. split; [apply find_col_None|]. split; [apply find_col_Some|].
  split; [done|]. split.
  { intros o w Hmain.
    destruct (strdup_ok w) eqn:Hok; [right|by left].
    unfold main, parse_output_option in Hmain. rewrite Hok in Hmain.
    assert (Hdef : parse_columns true DEFAULT_COLS
                   = (0, [COL_NAME; COL_SIZE; COL_TYPE; COL_MOUNTPOINT])) by reflexivity.
    destruct (opt_o o) as [s|] eqn:Ho.
    - destruct (String.eqb_spec s "") as [->|Hne].
      + rewrite Hdef in Hmain. cbn [Z.eqb negb] in Hmain.
        by apply run_with_columns_other_message in Hmain.
      + exists s. split; [done|]. split; [done|].
        destruct (Nat.leb_spec (length (recognized s)) 32) as [Hle|Hgt]; [exfalso|lia].
        rewrite parse_columns_recognized in Hmain.
        apply Nat.leb_le in Hle. rewrite Hle in Hmain. cbn [Z.eqb negb] in Hmain.
        by apply run_with_columns_other_message in Hmain.
    - rewrite Hdef in Hmain. cbn [Z.eqb negb] in Hmain.
      by apply run_with_columns_other_message in Hmain. }
  intros Hnone.
  assert (Hzero : parse_columns true ostr = (0, [])).
  { rewrite Hparse, Hnone. done. }
  split; [done|]. intros o w Ho Hne Hok.
  unfold main, parse_output_option. rewrite Ho, Hok.
  destruct (String.eqb_spec ostr "") as [|_]; [done|].
  rewrite Hzero. cbn [Z.eqb negb]. by destruct (opt_f o).
Qed.

(** A list of unknown names: the projection is empty and the rows are the
    names alone. *)
Lemma parse_columns_skips_unknown_witness :
  recognized "FOO, bar,,uuids" = []
  ∧ main (mkOptions false false false (Some "FOO, bar,,uuids")) scenario_host
    = Some (mkRun 0 (lines [""; "disk0"; "  └── disk0s1"]) "").
Proof.
  split; [reflexivity|].
  destruct (parse_columns_skips_unknown "FOO, bar,,uuids") as (_ & _ & _ & _ & _ & H).
  destruct (H eq_refl) as [_ Hmain].
  rewrite Hmain; [by vm_compute | reflexivity | discriminate | reflexivity].
Defined.

(** ** C7: the enricher and the mount point *)

Lemma foldl_alter_seq {A} (f : A → A) (pre l : list A) :
  foldl (λ h i, alter f i h) (pre ++ l) (seq (length pre) (length l)) = pre ++ (f <$> l).
Proof.
  revert pre. induction l as [|x l IH]; intros pre; [done|].
  cbn [length seq foldl fmap list_fmap].
  replace (alter f (length pre) (pre ++ x :: l)) with ((pre ++ [f x]) ++ l).
  - specialize (IH (pre ++ [f x])). rewrite length_app in IH. cbn [length] in IH.
    replace (length pre + 1)%nat with (S (length pre)) in IH by lia.
    rewrite IH. by rewrite <- app_assoc.
  - rewrite <- app_assoc. cbn [app].
    replace (length pre) with (length pre + 0)%nat at 1 by lia.
    by rewrite alter_app_r.
Qed.

(** The loop of [main] over the flat index enriches every node once. *)
Lemma fill_info_all_fmap info h :
  fill_info_all info h = (λ nd, fill_info_node (info (name nd)) nd) <$> h.
Proof.
  unfold fill_info_all, fill_info.
  apply (foldl_alter_seq (λ nd, fill_info_node (info (name nd)) nd) [] h).
Qed.

Lemma set_if_nonempty_name setter s n :
  (∀ v m, name (setter v m) = name m) → name (set_if_nonempty setter s n) = name n.
Proof. intros H. unfold set_if_nonempty. repeat case_match; auto. Qed.

Lemma set_if_present_name setter s n :
  (∀ v m, name (setter v m) = name m) → name (set_if_present setter s n) = name n.
Proof. intros H. unfold set_if_present. case_match; auto. Qed.

Lemma set_if_nonempty_children setter s n :
  (∀ v m, children (setter v m) = children m) →
  children (set_if_nonempty setter s n) = children n.
Proof. intros H. unfold set_if_nonempty. repeat case_match; auto. Qed.

Lemma set_if_present_children setter s n :
  (∀ v m, children (setter v m) = children m) →
  children (set_if_present setter s n) = children n.
Proof. intros H. unfold set_if_present. case_match; auto. Qed.

Lemma set_if_nonempty_mountpoint setter s n :
  (∀ v m, mountpoint (setter v m) = mountpoint m) →
  mountpoint (set_if_nonempty setter s n) = mountpoint n.
Proof. intros H. unfold set_if_nonempty. repeat case_match; auto. Qed.

Lemma set_if_present_mountpoint setter s n :
  (∀ v m, mountpoint (setter v m) = mountpoint m) →
  mountpoint (set_if_present setter s n) = mountpoint n.
Proof. intros H. unfold set_if_present. case_match; auto. Qed.

Lemma fill_info_node_name info n : name (fill_info_node info n) = name n.
Proof.
  unfold fill_info_node. repeat case_match; try done;
    repeat first [rewrite set_if_nonempty_name by done | rewrite set_if_present_name by done];
    done.
Qed.

Lemma fill_info_node_children info n : children (fill_info_node info n) = children n.
Proof.
  unfold fill_info_node. repeat case_match; try done;
    repeat first [rewrite set_if_nonempty_children by done
                 | rewrite set_if_present_children by done];
    done.
Qed.

(** The mount point after [fill_info]: the one of the answer when the
    answer has a mount point that is a string and not empty, the old one
    otherwise. *)
Lemma fill_info_node_mountpoint d n :
  mountpoint (fill_info_node (Some (PDict d)) n)
  = match cfstr (dict_get d "MountPoint") with
    | Some v => if String.eqb v "" then mountpoint n else v
    | None => mountpoint n
    end.
Proof.
  cbn [fill_info_node].
  set (n4 := set_if_present set_uuid _ _).
  assert (Hn4 : mountpoint n4 = mountpoint n).
  { unfold n4. rewrite set_if_present_mountpoint by done.
    case_match; repeat rewrite set_if_nonempty_mountpoint by done;
      by rewrite set_if_present_mountpoint by done. }
  unfold set_if_nonempty. repeat case_match; done.
Qed.

(** C7. With the enrichment on, the loop over the flat index leaves every
    node with the mount point its own report gives, when the lookup
    succeeds and the report has a mount point that is not empty, also over
    a mount point that mount resolution had set; when the report has no
    mount point, or an empty one, or the lookup fails, the node keeps the
    mount point it had. *)
Theorem enrichment_mountpoint_precedence
    (info : string → option plist) (h : list Node) (i : nat) (nd : Node) :
  h !! i = Some nd →
  ∃ nd', fill_info_all info h !! i = Some nd'
         ∧ name nd' = name nd
         ∧ (∀ d s, info (name nd) = Some (PDict d) →
                   dict_get d "MountPoint" = Some (PString s) → c_str s ≠ "" →
                   mountpoint nd' = c_str s)
         ∧ (∀ d, info (name nd) = Some (PDict d) →
                 cfstr (dict_get d "MountPoint") = None
                 ∨ cfstr (dict_get d "MountPoint") = Some "" →
                 mountpoint nd' = mountpoint nd)
         ∧ ((∀ d, info (name nd) ≠ Some (PDict d)) → nd' = nd).
Proof.
  intros Hi. exists (fill_info_node (info (name nd)) nd).
  split; [by rewrite fill_info_all_fmap, list_lookup_fmap, Hi|].
  split; [apply fill_info_node_name|].
  split; [|split].
  - intros d s -> Hmp Hne. rewrite fill_info_node_mountpoint, Hmp. cbn [cfstr].
    by destruct (String.eqb_spec (c_str s) "").
  - intros d -> [Hmp|Hmp]; by rewrite fill_info_node_mountpoint, Hmp.
  - intros Hfail. destruct (info (name nd)) as [[| | | |d]|] eqn:Hinfo; try done.
    by destruct (Hfail d).
Qed.

(** A volume mounted at /Volumes/Old whose report says /Volumes/New, an
    empty mount point, or none. *)
Lemma enrichment_mountpoint_precedence_witness :
  (∃ nd', fill_info_all (volume_info (Some (PString "/Volumes/New")))
            [mkNode "disk4s1" 512 "part" "/Volumes/Old" "hfs" "" "" None []] !! 0%nat = Some nd'
          ∧ mountpoint nd' = "/Volumes/New")
  ∧ out <$> main enrich_options (volume_host (Some (PString "/Volumes/New")))
    = Some (lines ["NAME MOUNTPOINT"; "disk4 "; "disk4s1 /Volumes/New"])
  ∧ out <$> main enrich_options (volume_host (Some (PString "")))
    = Some (lines ["NAME MOUNTPOINT"; "disk4 "; "disk4s1 /Volumes/Old"])
  ∧ out <$> main enrich_options (volume_host None)
    = Some (lines ["NAME MOUNTPOINT"; "disk4 "; "disk4s1 /Volumes/Old"]).
Proof.
  split; [|by vm_compute].
  destruct (enrichment_mountpoint_precedence
              (volume_info (Some (PString "/Volumes/New")))
              [mkNode "disk4s1" 512 "part" "/Volumes/Old" "hfs" "" "" None []]
              0%nat _ eq_refl) as (nd' & Hnd' & _ & Hset & _).
  exists nd'. split; [exact Hnd'|].
  apply (Hset [("MountPoint", PString "/Volumes/New")] "/Volumes/New"%string);
    [reflexivity | reflexivity | discriminate].
Defined.

(** ** Loops *)

Lemma loop_invariant {S A} (body : S → A → option S) (P : S → Prop) l s s' :
  P s → (∀ s1 x s2, x ∈ l → P s1 → body s1 x = Some s2 → P s2) →
  loop body s l = Some s' → P s'.
Proof.
  revert s. induction l as [|x l IH]; intros s Hs Hstep Hloop; simpl in Hloop.
  - by simplify_eq.
  - destruct (body s x) as [s1|] eqn:Hb; [|done].
    apply (IH s1); [|intros s2 y s3 Hy|done].
    + apply (Hstep s x); [by left|done|done].
    + apply Hstep. by right.
Qed.

Lemma loop_returns {S A} (body : S → A → option S) (P : S → Prop) l s :
  P s → (∀ s1 x, x ∈ l → P s1 → ∃ s2, body s1 x = Some s2 ∧ P s2) →
  ∃ s', loop body s l = Some s' ∧ P s'.
Proof.
  revert s. induction l as [|x l IH]; intros s Hs Hstep; simpl; [by exists s|].
  destruct (Hstep s x) as (s1 & -> & Hs1); [by left|done|].
  apply IH; [done|]. intros s2 y Hy. apply Hstep. by right.
Qed.

(** Induction over the part of the array the loop has gone through. *)
Lemma loop_prefix {S A} (body : S → A → option S) (P : list A → S → Prop) l s s' :
  P [] s → (∀ pre x s1 s2, P pre s1 → body s1 x = Some s2 → P (pre ++ [x]) s2) →
  loop body s l = Some s' → P l s'.
Proof.
  intros H0 Hstep. change l with ([] ++ l) at 2. generalize (@nil A) H0. clear H0.
  revert s. induction l as [|x l IH]; intros s pre Hpre Hloop; simpl in Hloop.
  - simplify_eq. by rewrite app_nil_r.
  - destruct (body s x) as [s1|] eqn:Hb; [|done].
    rewrite cons_middle, app_assoc. apply (IH s1); [|done]. by apply (Hstep pre x s).
Qed.

Lemma out_loop_returns {A} (body : nat → A → option string) l i :
  (∀ j x, x ∈ l → is_Some (body j x)) → is_Some (out_loop body i l).
Proof.
  revert i. induction l as [|x l IH]; intros i Hb; simpl; [done|].
  destruct (Hb i x) as [s ->]; [by left|].
  destruct (IH (S i)) as [s' ->]; [|done]. intros j y Hy. apply Hb. by right.
Qed.

(** ** The store under updates of one node *)

Lemma skeleton_lookup h n : skeleton h !! n = children <$> h !! n.
Proof. apply list_lookup_fmap. Qed.

Lemma skeleton_alter f n h :
  (∀ nd, children (f nd) = children nd) → skeleton (alter f n h) = skeleton h.
Proof.
  intros Hf. unfold skeleton.
  rewrite (list_fmap_alter children f id) by (apply Forall_forall; intros; apply Hf).
  by apply list_alter_id.
Qed.

Lemma names_alter f n h : (∀ nd, name (f nd) = name nd) → names (alter f n h) = names h.
Proof.
  intros Hf. unfold names.
  rewrite (list_fmap_alter name f id) by (apply Forall_forall; intros; apply Hf).
  by apply list_alter_id.
Qed.

Lemma skeleton_length h : length (skeleton h) = length h.
Proof. apply length_fmap. Qed.

Lemma skeleton_budget h h' : skeleton h = skeleton h' → budget h = budget h'.
Proof. intros H. unfold budget. by rewrite <- (skeleton_length h), H, skeleton_length. Qed.

Lemma depth_ok_lookup fuel sk n : depth_ok fuel sk n = true → is_Some (sk !! n).
Proof. destruct fuel; simpl; [done|]. by destruct (sk !! n). Qed.

Lemma depth_ok_children fuel h n nd c :
  depth_ok (S fuel) (skeleton h) n = true → h !! n = Some nd → c ∈ children nd →
  depth_ok fuel (skeleton h) c = true.
Proof.
  simpl. rewrite skeleton_lookup. intros Hd Hn Hc. rewrite Hn in Hd. simpl in Hd.
  rewrite forallb_forall in Hd. apply Hd. by apply list_elem_of_In.
Qed.

Lemma depth_ok_node fuel h n :
  depth_ok fuel (skeleton h) n = true → is_Some (h !! n).
Proof.
  intros H%depth_ok_lookup. rewrite skeleton_lookup in H.
  destruct (h !! n); [done|]. by destruct H.
Qed.

Lemma loop_each {S A} (body : S → A → option S) l s s' :
  loop body s l = Some s' → ∀ x, x ∈ l → ∃ s1 s2, body s1 x = Some s2.
Proof.
  revert s. induction l as [|y l IH]; intros s Hloop x Hx; [by apply elem_of_nil in Hx|].
  simpl in Hloop. destruct (body s y) as [s1|] eqn:Hb; [|done].
  apply elem_of_cons in Hx as [->|Hx]; [by exists s, s1|]. by apply (IH s1).
Qed.

Lemma loop_ext {S A} (body body' : S → A → option S) l s :
  (∀ s1 x, x ∈ l → body s1 x = body' s1 x) → loop body s l = loop body' s l.
Proof.
  revert s. induction l as [|y l IH]; intros s Hext; simpl; [done|].
  rewrite <- Hext by by left. destruct (body s y) as [s1|]; [|done].
  apply IH. intros s2 x Hx. apply Hext. by right.
Qed.

(** ** The mount resolver: what a walk changes *)

Section Mount.
Context (id target : string).

Lemma set_mountpoint_twice nd :
  set_mountpoint target (set_mountpoint target nd) = set_mountpoint target nd.
Proof. by destruct nd. Qed.

Lemma mount_only_refl h : mount_only id target h h.
Proof. apply Forall2_same_length_lookup_2; [done|]. intros i x y ? ?. left. congruence. Qed.

Lemma mount_only_trans h1 h2 h3 : mount_only id target h1 h2 → mount_only id target h2 h3 → mount_only id target h1 h3.
Proof.
  intros H12 H23. eapply Forall2_trans; [|done..].
  intros x y z [->|[Hx ->]] [->|[Hy ->]].
  - by left.
  - right. done.
  - right. done.
  - right. split; [done|]. apply set_mountpoint_twice.
Qed.

Lemma mount_only_alter h n nd :
  h !! n = Some nd → name nd = id → mount_only id target h (alter (set_mountpoint target) n h).
Proof.
  intros Hn Hid. apply Forall2_alter_r; [apply mount_only_refl|].
  intros x y Hx Hy _. right. by simplify_eq.
Qed.

Lemma mount_step_children nd nd' : mount_step id target nd nd' → children nd' = children nd.
Proof. by intros [->|[_ ->]]. Qed.

Lemma mount_step_name nd nd' : mount_step id target nd nd' → name nd' = name nd.
Proof. by intros [->|[_ ->]]. Qed.

Lemma mount_only_skeleton h h' : mount_only id target h h' → skeleton h' = skeleton h.
Proof.
  induction 1 as [|nd nd' h h' Hstep _ IH]; [done|].
  unfold skeleton in *. cbn [fmap list_fmap]. f_equal; [by eapply mount_step_children|done].
Qed.

Lemma mount_only_names h h' : mount_only id target h h' → names h' = names h.
Proof.
  induction 1 as [|nd nd' h h' Hstep _ IH]; [done|].
  unfold names in *. cbn [fmap list_fmap]. f_equal; [by eapply mount_step_name|done].
Qed.

Lemma mount_only_lookup h h' i nd :
  mount_only id target h h' → h !! i = Some nd → ∃ nd', h' !! i = Some nd' ∧ mount_step id target nd nd'.
Proof. intros H Hi. by apply (Forall2_lookup_l _ _ _ _ _ H Hi). Qed.

Lemma mount_only_lookup_r h h' i nd' :
  mount_only id target h h' → h' !! i = Some nd' → ∃ nd, h !! i = Some nd ∧ mount_step id target nd nd'.
Proof. intros H Hi. by apply (Forall2_lookup_r _ _ _ _ _ H Hi). Qed.

(** A mount point that has the target keeps it. *)
Lemma mount_only_keeps h h' i :
  mount_only id target h h' → mountpoint <$> h !! i = Some target → mountpoint <$> h' !! i = Some target.
Proof.
  intros H Hi. destruct (h !! i) as [nd|] eqn:Hnd; [|done].
  destruct (mount_only_lookup _ _ _ _ H Hnd) as (nd' & -> & [->|[_ ->]]); [done|].
  reflexivity.
Qed.

Lemma walked_mount_only h h' n i : mount_only id target h h' → walked h id n i ↔ walked h' id n i.
Proof.
  intros H. split.
  - induction 1 as [n|n nd c i Hn Hne Hc _ IH]; [constructor|].
    destruct (mount_only_lookup _ _ _ _ H Hn) as (nd' & Hn' & Hstep).
    apply (walked_below _ _ n nd' c i); [done| | |done].
    + by rewrite (mount_step_name _ _ Hstep).
    + by rewrite (mount_step_children _ _ Hstep).
  - induction 1 as [n|n nd' c i Hn Hne Hc _ IH]; [constructor|].
    destruct (mount_only_lookup_r _ _ _ _ H Hn) as (nd & Hn' & Hstep).
    apply (walked_below _ _ n nd c i); [done| | |done].
    + by rewrite <- (mount_step_name _ _ Hstep).
    + by rewrite <- (mount_step_children _ _ Hstep).
Qed.

Lemma walks_loop (body : list Node → nat → option (list Node)) h l h' :
  (∀ hj c hj', body hj c = Some hj' → walk_spec id target hj c hj') →
  loop body h l = Some h' → walks_spec id target h l h'.
Proof.
  intros Hbody. apply (loop_prefix body (λ pre hj, walks_spec id target h pre hj)).
  - split; [apply mount_only_refl|]. split; [intros c i nd Hc; by apply elem_of_nil in Hc|].
    intros i. by left.
  - intros pre x hj hj' (Hmo & Hset & Hrest) Hx.
    destruct (Hbody _ _ _ Hx) as (Hmo' & Hset' & Hrest').
    split; [by eapply mount_only_trans|]. split.
    + intros c i nd Hc Hw Hi Hid. apply elem_of_app in Hc as [Hc|Hc].
      * eapply mount_only_keeps; [done|]. by eapply Hset.
      * apply list_elem_of_singleton in Hc as ->.
        destruct (mount_only_lookup _ _ _ _ Hmo Hi) as (ndj & Hj & Hstep).
        apply (Hset' i ndj); [by apply (walked_mount_only h hj)|done|].
        by rewrite (mount_step_name _ _ Hstep).
    + intros i. destruct (Hrest' i) as [Heq|Hw].
      * destruct (Hrest i) as [Heq'|(c & Hc & Hw)]; [left; congruence|].
        right. exists c. split; [apply elem_of_app; by left|done].
      * right. exists x. split; [apply elem_of_app; right; by apply list_elem_of_singleton|].
        by apply (walked_mount_only h hj).
Qed.

Lemma set_mountpoint_recursive_spec fuel h n h' :
  set_mountpoint_recursive fuel h n id target = Some h' → walk_spec id target h n h'.
Proof.
  revert h n h'. induction fuel as [|fuel IH]; intros h n h' Hrun; [done|].
  simpl in Hrun. destruct (h !! n) as [nd|] eqn:Hn; [|done].
  destruct (String.eqb_spec (name nd) id) as [Hid|Hne].
  - injection Hrun as <-. split; [by eapply mount_only_alter|]. split.
    + intros i ndi Hw Hi _. inversion Hw as [|? nd' ? ? Hn' Hne']; subst.
      * by rewrite list_lookup_alter_eq, Hn.
      * rewrite Hn in Hn'. injection Hn' as <-. contradiction.
    + intros i. destruct (decide (i = n)) as [->|Hi]; [right; constructor|].
      left. by apply list_lookup_alter_ne.
  - apply (walks_loop _ _ _ _ (λ hj c hj', IH hj c hj')) in Hrun as (Hmo & Hset & Hrest).
    split; [done|]. split.
    + intros i ndi Hw Hi Hid. inversion Hw as [|? nd' c ? Hn' Hne' Hc Hwc]; subst.
      * rewrite Hn in Hi. injection Hi as <-. contradiction.
      * rewrite Hn in Hn'. injection Hn' as <-. by apply (Hset c i ndi).
    + intros i. destruct (Hrest i) as [?|(c & Hc & Hw)]; [by left|].
      right. by apply (walked_below _ _ n nd c i).
Qed.

Lemma mount_roots_spec rts h h' :
  loop (λ hr r, set_mountpoint_recursive (budget hr) hr r id target) h rts = Some h' →
  walks_spec id target h rts h'.
Proof.
  apply walks_loop. intros hj c hj'. apply set_mountpoint_recursive_spec.
Qed.

(** The walk returns on a store whose chains of child pointers end. *)
Lemma set_mountpoint_recursive_returns fuel h n :
  depth_ok fuel (skeleton h) n = true →
  is_Some (set_mountpoint_recursive fuel h n id target).
Proof.
  revert h n. induction fuel as [|fuel IH]; intros h n Hd; [done|].
  destruct (depth_ok_node _ _ _ Hd) as [nd Hn]. simpl. rewrite Hn.
  destruct (String.eqb (name nd) id); [done|].
  destruct (loop_returns (λ hj ch, set_mountpoint_recursive fuel hj ch id target)
              (λ hj, skeleton hj = skeleton h) (children nd) h) as (h' & -> & _); [done| |done].
  intros hj c Hc Hsk.
  destruct (IH hj c) as [hj' Hrun].
  { rewrite Hsk. by eapply depth_ok_children. }
  exists hj'. split; [done|].
  apply set_mountpoint_recursive_spec in Hrun as [Hmo _].
  by rewrite (mount_only_skeleton _ _ Hmo).
Qed.

Lemma mount_roots_returns rts h :
  (∀ r, r ∈ rts → depth_ok (budget h) (skeleton h) r = true) →
  ∃ h', loop (λ hr r, set_mountpoint_recursive (budget hr) hr r id target) h rts = Some h'
        ∧ mount_only id target h h'.
Proof.
  intros Hd.
  destruct (loop_returns (λ hr r, set_mountpoint_recursive (budget hr) hr r id target)
              (λ hj, mount_only id target h hj) rts h) as (h' & Hrun & Hmo);
    [apply mount_only_refl| |by exists h'].
  intros hj r Hr Hmo. pose proof (mount_only_skeleton _ _ Hmo) as Hsk.
  destruct (set_mountpoint_recursive_returns (budget hj) hj r) as [hj' Hrun].
  { rewrite Hsk, (skeleton_budget hj h Hsk). by apply Hd. }
  exists hj'. split; [done|].
  apply set_mountpoint_recursive_spec in Hrun as [Hmo' _]. by eapply mount_only_trans.
Qed.
End Mount.

(** ** Teardown and the depth of the forest *)

Lemma node_free_depth fuel h fr n fr' :
  node_free fuel h fr n = Some fr' → depth_ok fuel (skeleton h) n = true.
Proof.
  revert fr n fr'. induction fuel as [|fuel IH]; intros fr n fr' Hfree; [done|].
  simpl in *. rewrite skeleton_lookup.
  destruct (decide (n ∈ fr)); [done|].
  destruct (h !! n) as [nd|]; [|done]. simpl.
  apply forallb_forall. intros c Hc%list_elem_of_In.
  destruct (loop_each _ _ _ _ Hfree c Hc) as (fr1 & fr2 & Hc'). by eapply IH.
Qed.

Lemma free_forest_depth h rts r :
  is_Some (free_forest h rts) → r ∈ rts → depth_ok (budget h) (skeleton h) r = true.
Proof.
  intros [fr Hfree] Hr. destruct (loop_each _ _ _ _ Hfree r Hr) as (fr1 & fr2 & Hr').
  by eapply node_free_depth.
Qed.

Lemma node_free_skeleton fuel h h' fr n :
  skeleton h = skeleton h' → node_free fuel h fr n = node_free fuel h' fr n.
Proof.
  intros Hsk. revert fr n. induction fuel as [|fuel IH]; intros fr n; [done|].
  simpl. destruct (decide (n ∈ fr)); [done|].
  pose proof (skeleton_lookup h n) as Hl. rewrite Hsk, skeleton_lookup in Hl.
  destruct (h !! n) as [nd|], (h' !! n) as [nd'|]; simplify_eq/=; [|done].
  rewrite Hl. by apply loop_ext.
Qed.

Lemma free_forest_skeleton h h' rts :
  skeleton h = skeleton h' → free_forest h rts = free_forest h' rts.
Proof.
  intros Hsk. unfold free_forest. rewrite (skeleton_budget _ _ Hsk).
  apply loop_ext. intros fr r _. by apply node_free_skeleton.
Qed.

(** ** C6: one entry of the mount table *)

Lemma mount_entry_returns rts h e :
  (∀ r, r ∈ rts → depth_ok (budget h) (skeleton h) r = true) →
  ∃ h', mount_entry rts h e = Some h' ∧ skeleton h' = skeleton h ∧ names h' = names h.
Proof.
  intros Hd. unfold mount_entry. destruct (String.prefix "/dev/" e.1); [|by exists h].
  destruct (mount_roots_returns (str_drop 5 e.1) e.2 rts h Hd) as (h' & Hrun & Hmo).
  exists h'. split; [done|]. split; [by eapply mount_only_skeleton|by eapply mount_only_names].
Qed.

Lemma fill_mountpoints_returns rts h mnt :
  is_Some (free_forest h rts) →
  ∃ h', fill_mountpoints rts h mnt = Some h' ∧ skeleton h' = skeleton h ∧ names h' = names h.
Proof.
  intros Hfree. destruct mnt as [entries|]; [|by exists h]. simpl.
  apply (loop_returns (mount_entry rts) (λ hj, skeleton hj = skeleton h ∧ names hj = names h));
    [done|].
  intros hj e _ [Hsk Hnm].
  destruct (mount_entry_returns rts hj e) as (hj' & Hrun & Hsk' & Hnm').
  { intros r Hr. rewrite Hsk, (skeleton_budget _ _ Hsk). by apply (free_forest_depth h rts). }
  exists hj'. split; [done|]. split; congruence.
Qed.

(** C6, the claim at two roots that carry one identifier: the entry
    mounts both, not the first one only. *)
Lemma twin_roots_both_mounted :
  ∃ h', mount_entry [0; 1]%nat twin_store ("/dev/disk1", "/mnt") = Some h'
        ∧ mountpoint <$> twin_store !! 1%nat = Some ""
        ∧ mountpoint <$> h' !! 0%nat = Some "/mnt"
        ∧ mountpoint <$> h' !! 1%nat = Some "/mnt"
        ∧ h' !! 1%nat ≠ twin_store !! 1%nat.
Proof. eexists. split; [by vm_compute|]. by vm_compute. Qed.

(** C6 as amended. Mount resolution has no way to fail the run: without a
    mount table it leaves the store as it is, and on a forest it returns
    for every table. An entry whose source does not begin with /dev/
    changes no node, and so does an entry whose identifier is carried by
    no node the walk enters. Otherwise the entry sets the mount point of
    every node that carries the identifier and that the walk enters, and
    changes nothing else: the walk starts at every root in turn, and goes
    from a node to all its children unless the node carries the
    identifier. With identifiers that are unique in the store at most one
    node changes. *)
Theorem mount_entry_effect (rts : list nat) (h : list Node) (from target : string) :
  (String.prefix "/dev/" from = false → mount_entry rts h (from, target) = Some h)
  ∧ fill_mountpoints rts h None = Some h
  ∧ (is_Some (free_forest h rts) →
     is_Some (mount_entry rts h (from, target))
     ∧ ∀ mnt, is_Some (fill_mountpoints rts h mnt))
  ∧ (∀ h', mount_entry rts h (from, target) = Some h' →
           String.prefix "/dev/" from = true →
           ((∀ r i nd, r ∈ rts → walked h (str_drop 5 from) r i → h !! i = Some nd →
                       name nd ≠ str_drop 5 from) → h' = h)
           ∧ (∀ i nd, h !! i = Some nd →
                (name nd = str_drop 5 from →
                 (∃ r, r ∈ rts ∧ walked h (str_drop 5 from) r i) →
                 h' !! i = Some (set_mountpoint target nd))
                ∧ (¬ (name nd = str_drop 5 from
                      ∧ ∃ r, r ∈ rts ∧ walked h (str_drop 5 from) r i) →
                   h' !! i = Some nd))
           ∧ (NoDup (names h) → ∀ i j, h' !! i ≠ h !! i → h' !! j ≠ h !! j → i = j)).
Proof.
  split; [by unfold mount_entry; simpl; intros ->|].
  split; [done|]. split.
  { intros Hfree. split.
    - destruct (mount_entry_returns rts h (from, target)) as (h' & -> & _); [|done].
      intros r Hr. by apply (free_forest_depth h rts).
    - intros mnt. by destruct (fill_mountpoints_returns rts h mnt Hfree) as (h' & -> & _). }
  intros h' Hrun Hpre. unfold mount_entry in Hrun. cbn [fst snd] in Hrun. rewrite Hpre in Hrun.
  apply mount_roots_spec in Hrun as (Hmo & Hset & Hrest).
  set (id := str_drop 5 from) in *.
  assert (Hpoint : ∀ i nd, h !! i = Some nd →
            (name nd = id → (∃ r, r ∈ rts ∧ walked h id r i) →
             h' !! i = Some (set_mountpoint target nd))
            ∧ (¬ (name nd = id ∧ ∃ r, r ∈ rts ∧ walked h id r i) → h' !! i = Some nd)).
  { intros i nd Hi.
    destruct (mount_only_lookup _ _ _ _ _ _ Hmo Hi) as (nd' & Hi' & Hstep). split.
    - intros Hid (r & Hr & Hw). specialize (Hset r i nd Hr Hw Hi Hid).
      rewrite Hi' in Hset |- *. cbn in Hset. injection Hset as Hmp. f_equal.
      destruct Hstep as [->|[_ ->]]; [|done]. destruct nd. cbn in Hmp. by subst.
    - intros Hnot. destruct (Hrest i) as [Heq|Hw]; [congruence|].
      destruct Hstep as [->|[Hid _]]; [done|]. by destruct Hnot. }
  split; [|split; [done|]].
  - intros Hnone. apply list_eq. intros i. destruct (h !! i) as [nd|] eqn:Hi.
    + apply (Hpoint i nd Hi). intros [Hid (r & Hr & Hw)]. by apply (Hnone r i nd).
    + apply lookup_ge_None in Hi. apply lookup_ge_None.
      by rewrite <- (Forall2_length _ _ _ Hmo).
  - intros Hnd i j Hi Hj.
    assert (Hchg : ∀ k, h' !! k ≠ h !! k → names h !! k = Some id).
    { intros k Hk. destruct (h !! k) as [nd|] eqn:Hnk.
      - destruct (mount_only_lookup _ _ _ _ _ _ Hmo Hnk) as (nd' & Hk' & [->|[Hid _]]);
          [by rewrite Hk' in Hk|].
        unfold names. by rewrite list_lookup_fmap, Hnk, <- Hid.
      - destruct Hk. apply lookup_ge_None in Hnk. apply lookup_ge_None.
        by rewrite <- (Forall2_length _ _ _ Hmo). }
    by apply (NoDup_lookup (names h) i j id); [|apply Hchg..].
Qed.

(** The two roots named disk1 are both entered and both mounted; an entry
    without the /dev/ prefix changes nothing. *)
Lemma mount_entry_effect_witness :
  mount_entry [0; 1]%nat twin_store ("/dev/disk1", "/mnt")
  = Some (set_mountpoint "/mnt" <$> twin_store)
  ∧ (set_mountpoint "/mnt" <$> twin_store) !! 1%nat
    = Some (set_mountpoint "/mnt" (mkNode "disk1" 0 "disk" "" "" "" "" None []))
  ∧ mount_entry [0; 1]%nat twin_store ("disk1", "/mnt") = Some twin_store.
Proof.
  destruct (mount_entry_effect [0; 1]%nat twin_store "/dev/disk1" "/mnt") as (_ & _ & _ & Hset).
  destruct (Hset (fmap (M:=list) (set_mountpoint "/mnt") twin_store) eq_refl eq_refl)
    as (_ & Hpoint & _).
  split; [reflexivity|]. split.
  - apply (Hpoint 1%nat _ eq_refl); [reflexivity|].
    exists 1%nat. split; [|constructor]. by apply list_elem_of_lookup_2 with 1%nat.
  - by apply (mount_entry_effect [0; 1]%nat twin_store "disk1" "/mnt").
Defined.

(** ** The renderers return on a forest *)

Lemma print_tree_returns fuel h cols n prefix last :
  depth_ok fuel (skeleton h) n = true → is_Some (print_tree fuel h cols n prefix last).
Proof.
  revert n prefix last. induction fuel as [|fuel IH]; intros n prefix last Hd; [done|].
  destruct (depth_ok_node _ _ _ Hd) as [nd Hn]. simpl. rewrite Hn.
  apply out_loop_returns. intros j c Hc.
  pose proof (depth_ok_children _ _ _ _ _ Hd Hn Hc) as Hdc.
  destruct (depth_ok_node _ _ _ Hdc) as [ch ->].
  by destruct (IH c (snprintf 256 (prefix +:+ (if last then " " else "│") +:+ "  "))
                 (j =? length (children nd) - 1)%nat Hdc) as [s ->].
Qed.

Lemma print_list_dfs_returns fuel h cols n :
  depth_ok fuel (skeleton h) n = true → is_Some (print_list_dfs fuel h cols n).
Proof.
  revert n. induction fuel as [|fuel IH]; intros n Hd; [done|].
  destruct (depth_ok_node _ _ _ Hd) as [nd Hn]. simpl. rewrite Hn.
  destruct (out_loop_returns (λ _ c, print_list_dfs fuel h cols c) (children nd) 0) as [s ->];
    [|done].
  intros j c Hc. apply IH. by eapply depth_ok_children.
Qed.

Lemma emit_json_returns fuel h n depth first :
  depth_ok fuel (skeleton h) n = true → is_Some (emit_json fuel h n depth first).
Proof.
  revert n depth first. induction fuel as [|fuel IH]; intros n depth first Hd; [done|].
  destruct (depth_ok_node _ _ _ Hd) as [nd Hn]. simpl. rewrite Hn.
  destruct (children nd) as [|c0 cs] eqn:Hcs; [done|]. rewrite <- Hcs.
  destruct (out_loop_returns (λ i c, emit_json fuel h c (S depth) (i =? 0)%nat) (children nd) 0)
    as [s ->]; [|done].
  intros j c Hc. apply IH. by eapply depth_ok_children.
Qed.

Lemma render_returns o cols st :
  (∀ r, r ∈ roots st → depth_ok (budget (flat st)) (skeleton (flat st)) r = true) →
  is_Some (render o cols st).
Proof.
  intros Hd. unfold render, print_json, print_list, print_forest_tree.
  destruct (opt_J o); [|destruct (opt_list o)].
  - destruct (out_loop_returns
                (λ i r, match emit_json (budget (flat st)) (flat st) r 1 true with
                        | None => None
                        | Some s => Some ((match i with O => "" | _ => "," +:+ nl end) +:+ s)
                        end) (roots st) 0) as [s ->]; [|done].
    intros j r Hr. by destruct (emit_json_returns _ (flat st) r 1 true (Hd r Hr)) as [s ->].
  - destruct (out_loop_returns
                (λ _ r, print_list_dfs (budget (flat st)) (flat st) cols r) (roots st) 0)
      as [s ->]; [|done].
    intros j r Hr. by apply print_list_dfs_returns, Hd.
  - match goal with
    | |- is_Some (match out_loop ?body _ _ with _ => _ end) =>
        destruct (out_loop_returns body (roots st) 0) as [s ->]; [|done]
    end.
    intros j r Hr. cbn beta.
    destruct (depth_ok_node _ _ _ (Hd r Hr)) as [nd ->].
    by destruct (print_tree_returns _ (flat st) cols r "  "
                   ((j =? length (roots st) - 1)%nat && (length (children nd) =? 0)%nat)
                   (Hd r Hr)) as [s ->].
Qed.

Lemma fill_info_all_skeleton info h : skeleton (fill_info_all info h) = skeleton h.
Proof.
  rewrite fill_info_all_fmap. unfold skeleton. rewrite <- list_fmap_compose.
  apply list_fmap_ext. intros i nd _. apply fill_info_node_children.
Qed.

Lemma fill_info_all_no_info h : fill_info_all no_info h = h.
Proof. rewrite fill_info_all_fmap. apply list_fmap_id. Qed.

(** ** [main] past the column check *)

Lemma main_columns o w :
  fst (parse_output_option (strdup_ok w) (opt_o o)) = 0 →
  main o w = run_with_columns (effective_columns o (strdup_ok w)) o w.
Proof.
  unfold main, effective_columns.
  destruct (parse_output_option (strdup_ok w) (opt_o o)) as [rc cols]. cbn [fst snd].
  intros ->. cbn [Z.eqb negb]. by destruct (opt_f o), (opt_o o).
Qed.

Lemma main_columns_abort o w :
  fst (parse_output_option (strdup_ok w) (opt_o o)) ≠ 0 →
  main o w = Some (mkRun 1 "" ("mlsblk: invalid -o columns" +:+ nl)).
Proof.
  unfold main.
  destruct (parse_output_option (strdup_ok w) (opt_o o)) as [rc cols]. cbn [fst].
  intros Hrc. by destruct (Z.eqb_spec rc 0).
Qed.

(** A run that got its listing and built a forest goes through to the end. *)
Lemma run_with_columns_completes cols o w d st :
  get_list_plist w = Some d → build_tree d = Some (0, st) →
  is_Some (free_forest (flat st) (roots st)) →
  ∃ h text,
    fill_mountpoints (roots st) (flat st) (mount_src w) = Some h
    ∧ render o cols (mkForest (roots st)
                       (if opt_f o then fill_info_all (info_src w) h else h)) = Some text
    ∧ run_with_columns cols o w = Some (mkRun 0 text "").
Proof.
  intros Hlist Hbuild Hfree. unfold run_with_columns. rewrite Hlist, Hbuild. cbn [Z.eqb negb].
  destruct (fill_mountpoints_returns (roots st) (flat st) (mount_src w) Hfree)
    as (h1 & Hh1 & Hsk1 & _).
  rewrite Hh1. set (h2 := if opt_f o then fill_info_all (info_src w) h1 else h1).
  assert (Hsk2 : skeleton h2 = skeleton (flat st)).
  { unfold h2. destruct (opt_f o); [by rewrite fill_info_all_skeleton|done]. }
  destruct (render_returns o cols (mkForest (roots st) h2)) as [text Htext].
  { cbn [roots flat]. intros r Hr. rewrite Hsk2, (skeleton_budget _ _ Hsk2).
    by apply (free_forest_depth (flat st) (roots st)). }
  exists h1, text. split; [done|]. split; [done|].
  rewrite Htext, (free_forest_skeleton h2 (flat st) (roots st) Hsk2).
  by destruct Hfree as [fr ->].
Qed.

(** ** The flat index under the steps of the builder *)

Lemma find_node_Some flat nm i :
  find_node flat nm = Some i →
  ∃ nd, flat !! i = Some nd ∧ name nd = nm.
Proof.
  unfold find_node. destruct (list_find _ flat) as [[j nd]|] eqn:Hfind; [|done].
  intros [= <-]. apply list_find_Some in Hfind as (Hj & Hnm & _). by exists nd.
Qed.

Lemma find_node_None flat nm : find_node flat nm = None → nm ∉ names flat.
Proof.
  unfold find_node. destruct (list_find _ flat) as [[j nd]|] eqn:Hfind; [done|].
  intros _. apply list_find_None in Hfind. unfold names.
  intros (nd & Hnm & Hnd)%list_elem_of_fmap.
  rewrite Forall_forall in Hfind. by apply (Hfind nd).
Qed.

Lemma find_node_unique flat nm i nd :
  NoDup (names flat) → flat !! i = Some nd → name nd = nm → find_node flat nm = Some i.
Proof.
  intros Hnd Hi Hnm. destruct (find_node flat nm) as [j|] eqn:Hfind.
  - apply find_node_Some in Hfind as (nd' & Hj & Hnm'). f_equal.
    apply (NoDup_lookup (names flat) j i nm); [done|unfold names; rewrite list_lookup_fmap..].
    + by rewrite Hj, <- Hnm'.
    + by rewrite Hi, <- Hnm.
  - apply find_node_None in Hfind. destruct Hfind. unfold names.
    apply list_elem_of_fmap. exists nd. split; [done|]. by eapply list_elem_of_lookup_2.
Qed.

(** [ensure_node] returns a node of the asked name; it appends one only
    when the index has none. *)
Lemma ensure_node_spec flat nm sz ty flat' i :
  ensure_node flat nm sz ty = (flat', i) →
  (∃ nd, flat' !! i = Some nd ∧ name nd = nm)
  ∧ ((nm ∈ names flat ∧ flat' = flat)
     ∨ ((nm ∉ names flat) ∧ flat' = flat ++ [node_create nm sz ty])).
Proof.
  unfold ensure_node. destruct (find_node flat nm) as [j|] eqn:Hfind; intros [= <- <-].
  - destruct (find_node_Some _ _ _ Hfind) as (nd & Hj & Hnm).
    split; [by exists nd|]. left. split; [|done]. unfold names.
    apply list_elem_of_fmap. exists nd. split; [done|]. by eapply list_elem_of_lookup_2.
  - split; [|right; split; [by apply find_node_None|done]].
    exists (node_create nm sz ty). split; [|done].
    by rewrite lookup_app_r, Nat.sub_diag by done.
Qed.

Lemma indexed_weaken ids ids' allowed allowed' h :
  (∀ x, x ∈ ids ↔ x ∈ ids') → (∀ x, x ∈ allowed → x ∈ allowed') →
  indexed ids allowed h → indexed ids' allowed' h.
Proof.
  intros Hids Hallowed (Hnd & Hin & Hch). split; [done|]. split.
  - intros x. by rewrite Hin.
  - intros nd c Hn Hc. destruct (Hch nd c Hn Hc) as (cn & ? & ?). exists cn. auto.
Qed.

Lemma indexed_ensure ids allowed flat nm sz ty flat' i :
  indexed ids allowed flat → ensure_node flat nm sz ty = (flat', i) →
  indexed (ids ++ [nm]) allowed flat'
  ∧ (∃ nd, flat' !! i = Some nd ∧ name nd = nm)
  ∧ names flat `prefix_of` names flat'.
Proof.
  intros (Hnd & Hin & Hch) Hens.
  destruct (ensure_node_spec _ _ _ _ _ _ Hens) as (Hi & [[Hold ->]|[Hnew ->]]).
  - split; [|split; [done|done]]. split; [done|]. split; [|done].
    intros x. rewrite elem_of_app, list_elem_of_singleton, <- Hin.
    split; [by left|]. intros [?| ->]; done.
  - split; [|split; [done|]].
    + split; [|split].
      * unfold names in *. rewrite fmap_app. apply NoDup_app. split; [done|].
        split; [|apply NoDup_singleton].
        intros x Hx Hx'%list_elem_of_singleton. cbn in Hx'. by subst.
      * intros x. unfold names in *. rewrite fmap_app, !elem_of_app, Hin. done.
      * intros nd c Hn Hc. apply elem_of_app in Hn as [Hn|Hn].
        -- destruct (Hch nd c Hn Hc) as (cn & Hcn & ?). exists cn. split; [|done].
           by apply lookup_app_l_Some.
        -- apply list_elem_of_singleton in Hn as ->. by apply elem_of_nil in Hc.
    + unfold names. rewrite fmap_app. by apply prefix_app_r.
Qed.

Lemma indexed_alter ids allowed h f n :
  (∀ nd, name (f nd) = name nd) → (∀ nd, children (f nd) = children nd) →
  indexed ids allowed h → indexed ids allowed (alter f n h).
Proof.
  intros Hname Hchildren (Hnd & Hin & Hch).
  split; [by rewrite names_alter|]. split; [by rewrite names_alter|].
  intros nd c Hn Hc. apply list_elem_of_lookup in Hn as [j Hj].
  assert (∃ nd0, h !! j = Some nd0 ∧ children nd0 = children nd) as (nd0 & Hj0 & Hc0).
  { destruct (decide (n = j)) as [->|Hne].
    - rewrite list_lookup_alter_eq in Hj. destruct (h !! j) as [nd0|]; [|done].
      exists nd0. split; [done|]. simplify_eq/=. by rewrite Hchildren.
    - rewrite list_lookup_alter_ne in Hj by done. by exists nd. }
  destruct (Hch nd0 c) as (cn & Hcn & Hallowed);
    [by eapply list_elem_of_lookup_2|by rewrite Hc0|].
  destruct (decide (n = c)) as [->|Hne].
  - exists (f cn). rewrite list_lookup_alter_eq, Hcn. split; [done|]. by rewrite Hname.
  - exists cn. by rewrite list_lookup_alter_ne.
Qed.

Lemma indexed_add_child ids allowed h p c cn :
  indexed ids allowed h → h !! c = Some cn → name cn ∈ allowed →
  indexed ids allowed (node_add_child h p c).
Proof.
  intros Hidx Hc Hallowed. unfold node_add_child.
  apply (indexed_alter ids allowed h (set_parent (Some p)) c) in Hidx; [|done..].
  destruct Hidx as (Hnd & Hin & Hch).
  split; [by rewrite names_alter|]. split; [by rewrite names_alter|].
  set (h1 := alter (set_parent (Some p)) c h) in *.
  assert (Hc1 : ∃ cn1, h1 !! c = Some cn1 ∧ name cn1 = name cn).
  { exists (set_parent (Some p) cn). unfold h1. by rewrite list_lookup_alter_eq, Hc. }
  intros nd x Hn Hx. apply list_elem_of_lookup in Hn as [j Hj].
  assert (∃ y, h1 !! x = Some y ∧ name y ∈ allowed) as (y & Hy & Hya).
  { destruct (decide (p = j)) as [->|Hne].
    - rewrite list_lookup_alter_eq in Hj. destruct (h1 !! j) as [nd0|] eqn:Hj0; [|done].
      simplify_eq/=. apply elem_of_app in Hx as [Hx|Hx].
      + apply (Hch nd0 x); [by eapply list_elem_of_lookup_2|done].
      + apply list_elem_of_singleton in Hx as ->. destruct Hc1 as (cn1 & ? & Hn1).
        exists cn1. by rewrite Hn1.
    - rewrite list_lookup_alter_ne in Hj by done.
      apply (Hch nd x); [by eapply list_elem_of_lookup_2|done]. }
  destruct (decide (p = x)) as [->|Hne].
  - eexists. rewrite list_lookup_alter_eq, Hy. split; [done|]. done.
  - exists y. by rewrite list_lookup_alter_ne.
Qed.

Lemma names_add_child h p c : names (node_add_child h p c) = names h.
Proof. unfold node_add_child. by rewrite !names_alter. Qed.

Lemma omap_entry_id_one part :
  omap entry_id [part] = match entry_id part with Some id => [id] | None => [] end.
Proof. cbn [omap list_omap]. by destruct (entry_id part). Qed.

Lemma volume_setter_name d n :
  name (set_fstype "apfs"
          (set_if_present set_uuid (cfstr (dict_get d "VolumeUUID"))
             (set_if_nonempty set_label (cfstr (dict_get d "VolumeName"))
                (set_if_nonempty set_mountpoint (cfstr (dict_get d "MountPoint")) n))))
  = name n.
Proof.
  cbn [set_fstype name]. rewrite set_if_present_name by done.
  by rewrite !set_if_nonempty_name by done.
Qed.

Lemma volume_setter_children d n :
  children (set_fstype "apfs"
              (set_if_present set_uuid (cfstr (dict_get d "VolumeUUID"))
                 (set_if_nonempty set_label (cfstr (dict_get d "VolumeName"))
                    (set_if_nonempty set_mountpoint (cfstr (dict_get d "MountPoint")) n))))
  = children n.
Proof.
  cbn [set_fstype children]. rewrite set_if_present_children by done.
  by rewrite !set_if_nonempty_children by done.
Qed.

Lemma add_partition_indexed ids allowed h dn part h' :
  indexed ids allowed h → add_partition h (Some dn) part = Some h' →
  (∀ id, entry_id part = Some id → id ∈ allowed) →
  indexed (ids ++ omap entry_id [part]) allowed h' ∧ names h `prefix_of` names h'.
Proof.
  intros Hidx Hadd Hallowed. rewrite omap_entry_id_one.
  destruct part as [| | | |d]; try done. cbn [add_partition entry_id] in *.
  destruct (cfstr (dict_get d "DeviceIdentifier")) as [idstr|] eqn:Hid.
  - destruct (ensure_node h idstr (cfint (dict_get d "Size")) "part") as [flat1 child] eqn:Hens.
    simplify_eq.
    destruct (indexed_ensure _ _ _ _ _ _ _ _ Hidx Hens) as (Hidx1 & (nd & Hnd & Hnm) & Hpre).
    split.
    + apply (indexed_add_child _ _ _ _ _
               (set_fstype (content_to_fstype (cfstr (dict_get d "Content")) 64) nd)).
      * by apply indexed_alter.
      * by rewrite list_lookup_alter_eq, Hnd.
      * cbn [set_fstype name]. rewrite Hnm. by apply Hallowed.
    + by rewrite names_add_child, names_alter.
  - simplify_eq. by rewrite app_nil_r.
Qed.

Lemma add_apfs_volume_indexed ids allowed h cn vol h' :
  indexed ids allowed h → add_apfs_volume h (Some cn) vol = Some h' →
  (∀ id, entry_id vol = Some id → id ∈ allowed) →
  indexed (ids ++ omap entry_id [vol]) allowed h' ∧ names h `prefix_of` names h'.
Proof.
  intros Hidx Hadd Hallowed. rewrite omap_entry_id_one.
  destruct vol as [| | | |d]; try done. cbn [add_apfs_volume entry_id] in *.
  destruct (cfstr (dict_get d "DeviceIdentifier")) as [idstr|] eqn:Hid.
  - destruct (ensure_node h idstr (cfint (dict_get d "Size")) "part") as [flat1 child] eqn:Hens.
    simplify_eq.
    destruct (indexed_ensure _ _ _ _ _ _ _ _ Hidx Hens) as (Hidx1 & (nd & Hnd & Hnm) & Hpre).
    split.
    + apply indexed_alter; [apply volume_setter_name|apply volume_setter_children|].
      apply (indexed_add_child _ _ _ _ _ nd); [done|done|].
      rewrite Hnm. by apply Hallowed.
    + rewrite names_alter by apply volume_setter_name. by rewrite names_add_child.
  - simplify_eq. by rewrite app_nil_r.
Qed.

(** A loop over nested entries, each step of which keeps the index and
    adds the identifier of its entry. *)
Lemma loop_indexed (step : list Node → plist → option (list Node)) allowed :
  (∀ ids h part h', indexed ids allowed h → step h part = Some h' →
                    (∀ id, entry_id part = Some id → id ∈ allowed) →
                    indexed (ids ++ omap entry_id [part]) allowed h'
                    ∧ names h `prefix_of` names h') →
  ∀ parts ids h h',
    indexed ids allowed h → loop step h parts = Some h' →
    (∀ id, id ∈ omap entry_id parts → id ∈ allowed) →
    indexed (ids ++ omap entry_id parts) allowed h' ∧ names h `prefix_of` names h'.
Proof.
  intros Hstep. induction parts as [|part parts IH]; intros ids h h' Hidx Hloop Hallowed.
  - cbn in *. simplify_eq. by rewrite app_nil_r.
  - cbn [loop] in Hloop. destruct (step h part) as [h1|] eqn:Hs; [|done].
    change (part :: parts) with ([part] ++ parts) in *. rewrite omap_app in *.
    destruct (Hstep ids h part h1 Hidx Hs) as [Hidx1 Hpre1].
    { intros id Hid. apply Hallowed, elem_of_app. left.
      rewrite omap_entry_id_one, Hid. by apply list_elem_of_singleton. }
    destruct (IH _ _ _ Hidx1 Hloop) as [Hidx2 Hpre2].
    { intros id Hid. apply Hallowed, elem_of_app. by right. }
    split; [by rewrite app_assoc|]. by etrans.
Qed.

Lemma name_of_names h r : name_of h r = default "" (names h !! r).
Proof. unfold name_of, names. rewrite list_lookup_fmap. by destruct (h !! r). Qed.

(** The names of the nodes that exist stay when the index grows. *)
Lemma name_of_prefix h h' r :
  names h `prefix_of` names h' → is_Some (h !! r) → name_of h' r = name_of h r.
Proof.
  intros [k Hk] [nd Hr]. rewrite !name_of_names, Hk.
  rewrite lookup_app_l; [done|]. unfold names. rewrite length_fmap. by eapply lookup_lt_Some.
Qed.

Lemma is_Some_prefix h h' r :
  names h `prefix_of` names h' → is_Some (h !! r) → is_Some (h' !! r).
Proof.
  intros Hpre [nd Hr]. apply lookup_lt_is_Some.
  apply prefix_length in Hpre. unfold names in Hpre. rewrite !length_fmap in Hpre.
  apply lookup_lt_Some in Hr. lia.
Qed.

(** ** The listing seen entry by entry *)

Lemma top_ids_snoc pre d :
  top_ids (pre ++ [d]) = top_ids pre ++ match entry_id d with Some id => [id] | None => [] end.
Proof. unfold top_ids. by rewrite omap_app, omap_entry_id_one. Qed.

Lemma identified_snoc pre d :
  identified (pre ++ [d])
  = identified pre ++ match entry_id d with Some _ => [d] | None => [] end.
Proof.
  unfold identified. rewrite filter_app. f_equal.
  destruct (entry_id d) as [id|] eqn:Hid.
  - rewrite filter_cons_True; [done|]. by rewrite Hid.
  - rewrite filter_cons_False; [done|]. rewrite Hid. by intros [? ?].
Qed.

Lemma identified_length all : length (identified all) = length (top_ids all).
Proof.
  induction all as [|d all IH] using rev_ind; [done|].
  rewrite identified_snoc, top_ids_snoc, !length_app, IH. by destruct (entry_id d).
Qed.

Lemma nested_ids_split e :
  nested_ids (PDict e)
  = omap entry_id (sub_array (dict_get e "Partitions"))
    ++ omap entry_id (sub_array (dict_get e "APFSVolumes")).
Proof. unfold nested_ids, nested_entries. by rewrite omap_app. Qed.

Lemma attached_ids_unrooted pre d :
  (64 ≤ length (identified pre))%nat ∨ entry_id d = None →
  attached_ids (pre ++ [d]) = attached_ids pre.
Proof.
  intros Hcase. unfold attached_ids, rooted. rewrite identified_snoc.
  destruct Hcase as [Hfull| ->]; [|by rewrite app_nil_r].
  by rewrite take_app_le by done.
Qed.

Lemma attached_ids_rooted pre d id :
  (length (identified pre) < 64)%nat → entry_id d = Some id →
  attached_ids (pre ++ [d]) = attached_ids pre ++ nested_ids d.
Proof.
  intros Hroom Hid. unfold attached_ids, rooted. rewrite identified_snoc, Hid.
  rewrite !firstn_all2 by (rewrite ?length_app; simpl; lia).
  rewrite bind_app. cbn. by rewrite app_nil_r.
Qed.

Lemma root_names_length st pre :
  root_names st = take 64 (top_ids pre) →
  length (roots st) = (length (top_ids pre) `min` 64)%nat.
Proof.
  intros H. apply (f_equal length) in H. unfold root_names in H.
  rewrite length_fmap, length_take in H. lia.
Qed.

(** One entry of the top-level loop. *)
Lemma collect_entry_collected pre st d st' :
  collected pre st → collect_entry None st d = Some st' → collected (pre ++ [d]) st'.
Proof.
  intros (Hidx & Hvalid & Hroots) Hstep.
  pose proof (root_names_length _ _ Hroots) as Hlen.
  assert (Hskip : entry_id d = None → st' = st → collected (pre ++ [d]) st').
  { intros Hnone ->. split; [|split; [done|]].
    - unfold listed_ids. rewrite top_ids_snoc, Hnone, app_nil_r.
      by rewrite attached_ids_unrooted by by right.
    - by rewrite top_ids_snoc, Hnone, app_nil_r. }
  destruct d as [| | | |e]; try (apply Hskip; [done|by simplify_eq/=]).
  cbn [collect_entry] in Hstep.
  destruct (cfstr (dict_get e "DeviceIdentifier")) as [idstr|] eqn:Hid;
    [|apply Hskip; [done|by simplify_eq/=]].
  assert (Hentry : entry_id (PDict e) = Some idstr) by done.
  set (contentstr := cfstr (dict_get e "Content")) in *.
  destruct (ensure_node (flat st) idstr (cfint (dict_get e "Size")) _) as [flat1 dn] eqn:Hens.
  destruct (indexed_ensure _ _ _ _ _ _ _ _ Hidx Hens) as (Hidx1 & (nd & Hnd & Hnm) & Hpre1).
  set (flat2 := match contentstr with
                | Some _ => alter (set_fstype (content_to_fstype contentstr 64)) dn flat1
                | None => flat1
                end) in *.
  assert (Hnames2 : names flat2 = names flat1).
  { unfold flat2. destruct contentstr; [by rewrite names_alter|done]. }
  assert (Hidx2 : indexed (listed_ids pre ++ [idstr]) (attached_ids pre) flat2).
  { unfold flat2. destruct contentstr; [by apply indexed_alter|done]. }
  assert (Hpre2 : names (flat st) `prefix_of` names flat2) by by rewrite Hnames2.
  assert (Hdn2 : is_Some (flat2 !! dn) ∧ name_of flat2 dn = idstr).
  { rewrite name_of_names, Hnames2, <- name_of_names. unfold name_of. rewrite Hnd.
    split; [|done]. apply lookup_lt_is_Some.
    rewrite <- (length_fmap name flat2). fold (names flat2). rewrite Hnames2.
    unfold names. rewrite length_fmap. by eapply lookup_lt_Some. }
  destruct (Nat.leb_spec 64 (length (roots st))) as [Hfull|Hroom].
  - (* the root array is full *)
    cbn in Hstep. injection Hstep as <-. split; [|split]; cbn [flat roots].
    + assert (Hatt : attached_ids (pre ++ [PDict e]) = attached_ids pre).
      { apply attached_ids_unrooted. left. rewrite identified_length. lia. }
      rewrite Hatt. eapply indexed_weaken; [|done|exact Hidx2].
      intros x. unfold listed_ids. rewrite top_ids_snoc, Hentry, Hatt.
      rewrite !elem_of_app. tauto.
    + eapply Forall_impl; [done|]. intros r. by apply is_Some_prefix.
    + unfold root_names in *. cbn [flat roots].
      rewrite top_ids_snoc, Hentry, take_app_le by lia. rewrite <- Hroots.
      apply Forall_fmap_ext_1. eapply Forall_impl; [exact Hvalid|].
      intros r Hr. by apply name_of_prefix.
  - (* the entry becomes a root and its nested entries are read *)
    cbn [roots flat] in Hstep.
    destruct (loop _ flat2 (sub_array (dict_get e "Partitions"))) as [flat3|] eqn:Hparts;
      [|done].
    destruct (loop _ flat3 (sub_array (dict_get e "APFSVolumes"))) as [flat4|] eqn:Hvols;
      [|done].
    injection Hstep as <-.
    assert (Hatt : attached_ids (pre ++ [PDict e]) = attached_ids pre ++ nested_ids (PDict e)).
    { apply (attached_ids_rooted _ _ idstr); [rewrite identified_length; lia|done]. }
    assert (Hidx2' : indexed (listed_ids pre ++ [idstr]) (attached_ids (pre ++ [PDict e])) flat2).
    { eapply indexed_weaken; [done| |exact Hidx2].
      intros x Hx. rewrite Hatt. apply elem_of_app. by left. }
    destruct (loop_indexed (λ f, add_partition f (Some dn)) _
                (λ ids h part h', add_partition_indexed ids _ h dn part h')
                _ _ _ _ Hidx2' Hparts) as [Hidx3 Hpre3].
    { intros id Hin. rewrite Hatt, nested_ids_split, !elem_of_app. auto. }
    destruct (loop_indexed (λ f, add_apfs_volume f (Some dn)) _
                (λ ids h part h', add_apfs_volume_indexed ids _ h dn part h')
                _ _ _ _ Hidx3 Hvols) as [Hidx4 Hpre4].
    { intros id Hin. rewrite Hatt, nested_ids_split, !elem_of_app. auto. }
    assert (Hpre24 : names flat2 `prefix_of` names flat4) by by etrans.
    split; [|split]; cbn [flat roots].
    + eapply indexed_weaken; [|done|exact Hidx4].
      intros x. unfold listed_ids. rewrite top_ids_snoc, Hentry, Hatt, nested_ids_split.
      rewrite !elem_of_app. tauto.
    + apply Forall_app. split.
      * eapply Forall_impl; [exact Hvalid|]. intros r Hr.
        eapply is_Some_prefix; [exact Hpre24|]. by eapply is_Some_prefix.
      * apply Forall_singleton. eapply is_Some_prefix; [exact Hpre24|]. apply Hdn2.
    + unfold root_names in *. cbn [flat roots].
      rewrite top_ids_snoc, Hentry, fmap_app.
      rewrite firstn_all2 by (rewrite length_app; simpl; lia).
      rewrite (firstn_all2 (top_ids pre)) in Hroots by lia. rewrite <- Hroots.
      cbn [fmap list_fmap]. f_equal.
      * apply Forall_fmap_ext_1. eapply Forall_impl; [exact Hvalid|].
        intros r Hr. etrans; [|by apply name_of_prefix].
        apply name_of_prefix; [done|]. by eapply is_Some_prefix.
      * f_equal. destruct Hdn2 as [Hsome <-]. by apply name_of_prefix.
Qed.

Lemma collect_nodes_collected all st :
  collect_nodes all (mkForest [] []) None = Some st → collected all st.
Proof.
  apply (loop_prefix (collect_entry None) collected).
  - split; [|split; [by constructor|done]].
    split; [constructor|]. split; [done|]. intros nd c Hn. by apply elem_of_nil in Hn.
  - intros pre d s1 s2. apply collect_entry_collected.
Qed.

(** ** Sorting keeps the nodes and their children *)

Lemma reordered_refl h : reordered h h.
Proof. apply Forall2_same_length_lookup_2; [done|]. intros i x y ? ?. by simplify_eq. Qed.

Lemma reordered_trans h1 h2 h3 : reordered h1 h2 → reordered h2 h3 → reordered h1 h3.
Proof.
  intros H12 H23. eapply Forall2_trans; [|done..].
  intros x y z [Hn1 Hc1] [Hn2 Hc2]. split; [congruence|by etrans].
Qed.

Lemma reordered_names h h' : reordered h h' → names h' = names h.
Proof.
  induction 1 as [|nd nd' h h' [Hn _] _ IH]; [done|].
  unfold names in *. cbn [fmap list_fmap]. by f_equal.
Qed.

Lemma sort_children_reordered fuel h n h' :
  sort_children fuel h n = Some h' → reordered h h'.
Proof.
  revert h n h'. induction fuel as [|fuel IH]; intros h n h' Hsort; [done|].
  cbn [sort_children] in Hsort. destruct (h !! n) as [nd|] eqn:Hn; [|done].
  destruct (length (children nd) <=? 1)%nat; [simplify_eq; apply reordered_refl|].
  eapply reordered_trans; [|eapply (loop_invariant _ (reordered _)); [apply reordered_refl| |done]].
  - apply Forall2_alter_r; [apply reordered_refl|].
    intros x y Hx Hy _. simplify_eq. split; [done|]. cbn [set_children children].
    apply qsort_perm.
  - intros hi i hi' _ Hre Hbody. cbn beta in Hbody.
    destruct (hi !! n) as [ndi|]; [|done]. destruct (children ndi !! i) as [ch|]; [|done].
    eapply reordered_trans; [done|]. by eapply IH.
Qed.

Lemma indexed_reordered ids allowed h h' :
  indexed ids allowed h → reordered h h' → indexed ids allowed h'.
Proof.
  intros (Hnd & Hin & Hch) Hre. rewrite <- (reordered_names _ _ Hre) in Hnd, Hin.
  split; [done|]. split; [done|].
  intros nd' c Hn' Hc. apply list_elem_of_lookup in Hn' as [j Hj].
  destruct (Forall2_lookup_r _ _ _ _ _ Hre Hj) as (nd & Hj0 & _ & Hperm).
  destruct (Hch nd c) as (cn & Hcn & Hallowed);
    [by eapply list_elem_of_lookup_2|by rewrite <- Hperm|].
  destruct (Forall2_lookup_l _ _ _ _ _ Hre Hcn) as (cn' & Hcn' & Hname & _).
  exists cn'. split; [done|]. by rewrite Hname.
Qed.

(** What [build_tree] returns when the listing has its array. *)
Lemma build_tree_built d all rc st :
  dict_get d "AllDisksAndPartitions" = Some (PArray all) →
  build_tree d = Some (rc, st) →
  rc = 0
  ∧ ∃ st0, collect_nodes all (mkForest [] []) None = Some st0
           ∧ reordered (flat st0) (flat st)
           ∧ roots st ≡ₚ roots st0.
Proof.
  intros Hall Hbuild. unfold build_tree in Hbuild. rewrite Hall in Hbuild.
  destruct (collect_nodes all (mkForest [] []) None) as [st0|]; [|done].
  destruct (loop _ (flat st0) (roots st0)) as [h|] eqn:Hsort; [|done].
  simplify_eq. split; [done|]. exists st0. split; [done|]. cbn [flat roots].
  split; [|apply qsort_perm].
  apply (loop_invariant _ (reordered (flat st0)) _ _ _ (reordered_refl _)) in Hsort; [done|].
  intros h1 r h2 _ Hre Hbody. eapply reordered_trans; [done|].
  by eapply sort_children_reordered.
Qed.

Lemma build_tree_indexed d all rc st :
  dict_get d "AllDisksAndPartitions" = Some (PArray all) →
  build_tree d = Some (rc, st) →
  indexed (listed_ids all) (attached_ids all) (flat st).
Proof.
  intros Hall Hbuild.
  destruct (build_tree_built _ _ _ _ Hall Hbuild) as (_ & st0 & Hcollect & Hre & _).
  apply collect_nodes_collected in Hcollect as (Hidx & _).
  by eapply indexed_reordered.
Qed.

(** ** The builder returns *)

Lemma add_partition_returns h dn kv : is_Some (add_partition h dn (PDict kv)).
Proof.
  cbn [add_partition]. destruct (cfstr (dict_get kv "DeviceIdentifier")); [|done].
  by destruct (ensure_node h _ _ _).
Qed.

Lemma add_apfs_volume_returns h cn kv : is_Some (add_apfs_volume h cn (PDict kv)).
Proof.
  cbn [add_apfs_volume]. destruct (cfstr (dict_get kv "DeviceIdentifier")); [|done].
  by destruct (ensure_node h _ _ _).
Qed.

Lemma loop_dicts_returns (step : list Node → plist → option (list Node)) parts h :
  (∀ h' kv, is_Some (step h' (PDict kv))) →
  Forall (λ e, ∃ kv, e = PDict kv) parts → is_Some (loop step h parts).
Proof.
  intros Hstep Hdicts. revert h. induction Hdicts as [|e parts [kv ->] _ IH]; intros h; [done|].
  simpl. by destruct (Hstep h kv) as [h' ->].
Qed.

Lemma collect_entry_returns parent st d :
  Forall (λ e, ∃ kv, e = PDict kv) (nested_entries d) → is_Some (collect_entry parent st d).
Proof.
  intros Hdicts. destruct d as [| | | |e]; try done. cbn [collect_entry].
  destruct (cfstr (dict_get e "DeviceIdentifier")); [|done].
  destruct (ensure_node (flat st) _ _ _) as [flat1 dn].
  cbn [nested_entries] in Hdicts. apply Forall_app in Hdicts as [Hparts Hvols].
  match goal with
  | |- is_Some (match ?attach with _ => _ end) => destruct attach as [st1|]; [|done]
  end.
  destruct (loop_dicts_returns (λ f, add_partition f (Some dn))
              (sub_array (dict_get e "Partitions")) (flat st1)) as [flat3 ->];
    [intros; apply add_partition_returns|done|].
  by destruct (loop_dicts_returns (λ f, add_apfs_volume f (Some dn))
                 (sub_array (dict_get e "APFSVolumes")) flat3) as [flat4 ->];
    [intros; apply add_apfs_volume_returns|done|].
Qed.

(** The top-level loop returns on every listing whose nested entries are
    dictionaries, whatever identifiers it repeats. *)
Lemma collect_nodes_returns all st parent :
  nested_dicts all → is_Some (collect_nodes all st parent).
Proof.
  intros Hdicts. unfold collect_nodes.
  destruct (loop_returns (collect_entry parent) (λ _, True) all st) as (st' & -> & _);
    [done| |done].
  intros s d Hd _. destruct (collect_entry_returns parent s d) as [s' ->]; [|by exists s'].
  apply Forall_forall. intros e He. by apply (Hdicts d).
Qed.

(** ** C4: one node per identifier *)

(** C4. The builder returns on every listing whose nested entries are
    dictionaries, and the flat index it leaves, also after the sort, holds
    the identifiers it met, each one at one place only, however often the
    listing names it among the disks, partitions and volumes; asking
    [ensure_node] for an identifier the index has returns the place of the
    node that has it and the index as it was, so the node keeps its fields
    and nothing is appended. *)
Theorem flat_index_unique (all : list plist) :
  (nested_dicts all → is_Some (collect_nodes all (mkForest [] []) None))
  ∧ (∀ st0, collect_nodes all (mkForest [] []) None = Some st0 →
            NoDup (names (flat st0))
            ∧ ∀ id, id ∈ names (flat st0) ↔ id ∈ listed_ids all)
  ∧ (∀ d rc st, dict_get d "AllDisksAndPartitions" = Some (PArray all) →
                build_tree d = Some (rc, st) →
                NoDup (names (flat st))
                ∧ (∀ id, id ∈ names (flat st) ↔ id ∈ listed_ids all)
                ∧ (∀ i nd sz ty, flat st !! i = Some nd →
                                 ensure_node (flat st) (name nd) sz ty = (flat st, i)))
  ∧ (∀ h nm sz ty, nm ∈ names h →
                   ∃ j nd, ensure_node h nm sz ty = (h, j) ∧ h !! j = Some nd ∧ name nd = nm).
Proof.
  split; [apply collect_nodes_returns|]. split; [|split].
  - intros st0 Hcollect.
    by destruct (collect_nodes_collected _ _ Hcollect) as ((Hnd & Hin & _) & _).
  - intros d rc st Hall Hbuild.
    destruct (build_tree_indexed _ _ _ _ Hall Hbuild) as (Hnd & Hin & _).
    split; [done|]. split; [done|].
    intros i nd sz ty Hi. unfold ensure_node.
    by rewrite (find_node_unique (flat st) (name nd) i nd).
  - intros h nm sz ty Hnm. unfold ensure_node.
    destruct (find_node h nm) as [j|] eqn:Hfind.
    + destruct (find_node_Some _ _ _ Hfind) as (nd & Hj & Hname). by exists j, nd.
    + by apply find_node_None in Hfind.
Qed.

(** The slice listed twice has one node. *)
Lemma flat_index_unique_witness :
  ∃ st, built twice_listing = Some (0, st)
        ∧ names (flat st) = ["disk0"; "disk0s1"]
        ∧ NoDup (names (flat st))
        ∧ ensure_node (flat st) "disk0s1" 7 "disk" = (flat st, 1%nat).
Proof.
  eexists. split; [vm_compute; reflexivity|]. split; [reflexivity|].
  match goal with
  | |- NoDup (names (flat ?st)) ∧ _ =>
      destruct (proj1 (proj2 (proj2 (flat_index_unique _)))
                  [("AllDisksAndPartitions",
                    PArray [PDict [("DeviceIdentifier", PString "disk0");
                                   ("Content", PString "GUID_partition_scheme");
                                   ("Partitions",
                                    PArray [PDict [("DeviceIdentifier", PString "disk0s1")];
                                            PDict [("DeviceIdentifier", PString "disk0s1")]])]])]
                  0 st eq_refl eq_refl) as (Hnd & _ & Hens)
  end.
  split; [exact Hnd|]. exact (Hens 1%nat _ 7 "disk"%string eq_refl).
Defined.

(** ** C9: the bound on the roots *)

(** A node whose identifier is none of the first 64 top-level identifiers
    and is listed below none of the entries that became roots is no root
    and no child. *)
Lemma late_node_unreachable all st i nd :
  indexed (listed_ids all) (attached_ids all) (flat st) →
  root_names st ≡ₚ take 64 (top_ids all) →
  name nd ∉ take 64 (top_ids all) → name nd ∉ attached_ids all →
  flat st !! i = Some nd →
  (i ∉ roots st) ∧ ∀ nd', nd' ∈ flat st → i ∉ children nd'.
Proof.
  intros (_ & _ & Hch) Hrn Hlate Hfree Hi. split.
  - intros Hroot. apply Hlate. rewrite <- Hrn. unfold root_names.
    apply list_elem_of_fmap. exists i. split; [|done]. unfold name_of. by rewrite Hi.
  - intros nd' Hn' Hc. destruct (Hch nd' i Hn' Hc) as (cn & Hcn & Hallowed).
    apply Hfree. by simplify_eq.
Qed.

(** C9. The roots are the nodes of the first 64 top-level entries that
    have an identifier, in the order of the listing before the sort; an
    entry after them adds no root, yet its node is in the flat index. Such
    a node, when its identifier is none of the first 64 and is listed
    below none of them, is no root and no child of any node, so no
    renderer reaches it. *)
Theorem roots_capped_at_64 (all : list plist) :
  (nested_dicts all → is_Some (collect_nodes all (mkForest [] []) None))
  ∧ (∀ st0, collect_nodes all (mkForest [] []) None = Some st0 →
            (length (roots st0) ≤ 64)%nat
            ∧ root_names st0 = take 64 (top_ids all)
            ∧ (∀ id, id ∈ top_ids all → id ∈ names (flat st0))
            ∧ (∀ i nd, name nd ∉ take 64 (top_ids all) → name nd ∉ attached_ids all →
                       flat st0 !! i = Some nd →
                       (i ∉ roots st0) ∧ ∀ nd', nd' ∈ flat st0 → i ∉ children nd'))
  ∧ (∀ d rc st, dict_get d "AllDisksAndPartitions" = Some (PArray all) →
                build_tree d = Some (rc, st) →
                (length (roots st) ≤ 64)%nat
                ∧ root_names st ≡ₚ take 64 (top_ids all)
                ∧ (∀ id, id ∈ top_ids all → id ∈ names (flat st))
                ∧ (∀ i nd, name nd ∉ take 64 (top_ids all) → name nd ∉ attached_ids all →
                           flat st !! i = Some nd →
                           (i ∉ roots st) ∧ ∀ nd', nd' ∈ flat st → i ∉ children nd')).
Proof.
  split; [apply collect_nodes_returns|]. split.
  - intros st0 Hcollect.
    destruct (collect_nodes_collected _ _ Hcollect) as (Hidx & _ & Hroots).
    split; [rewrite (root_names_length _ _ Hroots); lia|]. split; [done|]. split.
    + intros id Hid. destruct Hidx as (_ & Hin & _). apply Hin, elem_of_app. by left.
    + intros i nd Hlate Hfree Hi. apply (late_node_unreachable all st0 i nd); try done.
      by rewrite Hroots.
  - intros d rc st Hall Hbuild.
    destruct (build_tree_built _ _ _ _ Hall Hbuild) as (_ & st0 & Hcollect & Hre & Hperm).
    pose proof (build_tree_indexed _ _ _ _ Hall Hbuild) as Hidx.
    destruct (collect_nodes_collected _ _ Hcollect) as (_ & _ & Hroots).
    assert (Hnames : ∀ r, name_of (flat st) r = name_of (flat st0) r).
    { intros r. by rewrite !name_of_names, (reordered_names _ _ Hre). }
    assert (Hrn : root_names st ≡ₚ take 64 (top_ids all)).
    { rewrite <- Hroots. unfold root_names. rewrite Hperm.
      erewrite list_fmap_ext; [done|]. intros j r _. apply Hnames. }
    split; [rewrite Hperm, (root_names_length _ _ Hroots); lia|]. split; [done|]. split.
    + intros id Hid. destruct Hidx as (_ & Hin & _). apply Hin, elem_of_app. by left.
    + intros i nd Hlate Hfree Hi. by apply (late_node_unreachable all st i nd).
Qed.

(** Sixty-five disks: the last one is in the index and out of the forest. *)
Lemma roots_capped_at_64_witness :
  ∃ st, build_tree (many_disks 65) = Some (0, st)
        ∧ length (roots st) = 64%nat
        ∧ length (flat st) = 65%nat
        ∧ "disk64" ∈ names (flat st)
        ∧ ((64%nat ∉ roots st) ∧ ∀ nd', nd' ∈ flat st → 64%nat ∉ children nd').
Proof.
  eexists. split; [vm_compute; reflexivity|]. split; [reflexivity|]. split; [reflexivity|].
  match goal with
  | |- _ ∈ names (flat ?st) ∧ _ =>
      destruct (proj2 (proj2 (roots_capped_at_64 (disk_entry <$> seq 0 65)))
                  (many_disks 65) 0 st eq_refl eq_refl) as (_ & _ & Hflat & Hout)
  end.
  split.
  - apply Hflat. by apply list_elem_of_lookup_2 with 64%nat.
  - eapply (Hout 64%nat); [| |reflexivity].
    + intros Hin%list_elem_of_In. vm_compute in Hin. intuition discriminate.
    + intros Hin%list_elem_of_In. vm_compute in Hin. done.
Defined.

(** ** Forests of depth two *)

Lemma loop_prefix_returns {S A} (body : S → A → option S) (P : list A → S → Prop) l s :
  P [] s →
  (∀ pre x post s1, l = pre ++ x :: post → P pre s1 →
                    ∃ s2, body s1 x = Some s2 ∧ P (pre ++ [x]) s2) →
  ∃ s', loop body s l = Some s' ∧ P l s'.
Proof.
  intros H0 Hstep.
  assert (Hgen : ∀ post pre s1, l = pre ++ post → P pre s1 →
                                ∃ s', loop body s1 post = Some s' ∧ P l s').
  { induction post as [|x post IH]; intros pre s1 Hl Hpre.
    - exists s1. rewrite app_nil_r in Hl. by subst.
    - destruct (Hstep pre x post s1 Hl Hpre) as (s2 & Hb & Hs2). simpl. rewrite Hb.
      apply (IH (pre ++ [x])); [|done]. by rewrite <- app_assoc. }
  by apply (Hgen l [] s).
Qed.

Lemma shaped_child_valid rts sk :
  shaped rts sk → ∀ i cs c, sk !! i = Some cs → c ∈ cs → (c < length sk)%nat.
Proof.
  intros (_ & _ & _ & _ & Hleaf) i cs c Hi Hc.
  destruct (Hleaf i cs c Hi Hc) as [_ Hc']. by eapply lookup_lt_Some.
Qed.

(** A new node without children, out of the forest. *)
Lemma shaped_new_node rts sk : shaped rts sk → shaped rts (sk ++ [[]]).
Proof.
  intros (Hnd & Hin & Hcs & Hone & Hleaf).
  assert (Hold : ∀ i cs, (sk ++ [[]]) !! i = Some cs → cs ≠ [] → sk !! i = Some cs).
  { intros i cs Hi Hne. apply lookup_app_Some in Hi as [Hi|[_ Hi]]; [done|].
    apply list_lookup_singleton_Some in Hi as [_ <-]. done. }
  assert (Hmem : ∀ i cs c, (sk ++ [[]]) !! i = Some cs → c ∈ cs → sk !! i = Some cs).
  { intros i cs c Hi Hc. apply Hold; [done|]. intros ->. by apply elem_of_nil in Hc. }
  split; [done|]. split; [|split; [|split]].
  - apply (Forall_impl _ _ _ Hin). intros r Hr. rewrite length_app. simpl. lia.
  - intros i cs Hi. destruct cs as [|c cs]; [constructor|].
    apply (Hcs i). apply Hold; done.
  - intros i j ci cj c Hi Hj Hci Hcj. eapply Hone; eauto.
  - intros i cs c Hi Hc. destruct (Hleaf i cs c (Hmem _ _ _ Hi Hc) Hc) as [Hr Hl].
    split; [done|]. by apply lookup_app_l_Some.
Qed.

(** A new node without children that becomes the last root. *)
Lemma shaped_new_root rts sk : shaped rts sk → shaped (rts ++ [length sk]) (sk ++ [[]]).
Proof.
  intros Hsh. pose proof (shaped_child_valid rts sk Hsh) as Hvalid.
  pose proof (shaped_new_node rts sk Hsh) as (Hnd & Hin & Hcs & Hone & Hleaf).
  destruct Hsh as (_ & Hin0 & _ & _ & Hleaf0).
  split; [|split; [|split; [done|split; [done|]]]].
  - apply NoDup_app. split; [done|]. split; [|apply NoDup_singleton].
    intros r Hr ->%list_elem_of_singleton.
    rewrite Forall_forall in Hin0. specialize (Hin0 _ Hr). lia.
  - apply Forall_app. split; [done|]. apply Forall_singleton. rewrite length_app. simpl. lia.
  - intros i cs c Hi Hc. destruct (Hleaf i cs c Hi Hc) as [Hr Hl]. split; [|done].
    intros [?| ->%list_elem_of_singleton]%elem_of_app; [done|].
    assert (sk !! i = Some cs) as Hi0.
    { apply lookup_app_Some in Hi as [Hi|[_ Hi]]; [done|].
      apply list_lookup_singleton_Some in Hi as [_ <-]. by apply elem_of_nil in Hc. }
    specialize (Hvalid i cs _ Hi0 Hc). lia.
Qed.

(** A new node without children that becomes the last child of a root. *)
Lemma shaped_new_child rts sk dn :
  shaped rts sk → dn ∈ rts →
  shaped rts (alter (λ l, l ++ [length sk]) dn (sk ++ [[]])).
Proof.
  intros Hsh Hdn. pose proof (shaped_child_valid rts sk Hsh) as Hvalid.
  pose proof (shaped_new_node rts sk Hsh) as (Hnd & Hin & Hcs & Hone & Hleaf).
  destruct Hsh as (_ & Hin0 & _ & _ & _).
  assert (Hdnlt : (dn < length sk)%nat).
  { rewrite Forall_forall in Hin0. by apply Hin0. }
  set (sk1 := sk ++ [[]]) in *. set (c := length sk) in *.
  assert (Hfresh : ∀ i cs, sk1 !! i = Some cs → c ∉ cs).
  { intros i cs Hi Hc. destruct (Hleaf i cs c Hi Hc) as [_ Hl].
    assert (sk !! i = Some cs) as Hi0.
    { unfold sk1 in Hi. apply lookup_app_Some in Hi as [Hi|[_ Hi]]; [done|].
      apply list_lookup_singleton_Some in Hi as [_ <-]. by apply elem_of_nil in Hc. }
    specialize (Hvalid i cs c Hi0 Hc). unfold c in Hvalid. lia. }
  assert (Hlook : ∀ i cs, alter (λ l, l ++ [c]) dn sk1 !! i = Some cs →
            (i = dn ∧ ∃ cs0, sk1 !! dn = Some cs0 ∧ cs = cs0 ++ [c])
            ∨ (i ≠ dn ∧ sk1 !! i = Some cs)).
  { intros i cs Hi. destruct (decide (dn = i)) as [<-|Hne].
    - left. split; [done|]. rewrite list_lookup_alter_eq in Hi.
      destruct (sk1 !! dn) as [cs0|]; [|done]. exists cs0. split; [done|]. by simplify_eq/=.
    - right. split; [done|]. by rewrite list_lookup_alter_ne in Hi. }
  assert (Hc1 : sk1 !! c = Some []).
  { unfold sk1, c. by rewrite lookup_app_r, Nat.sub_diag by done. }
  assert (Hcdn : c ≠ dn) by (unfold c; lia).
  split; [done|]. split; [|split; [|split]].
  - by rewrite length_alter.
  - intros i cs Hi. destruct (Hlook i cs Hi) as [[-> (cs0 & Hcs0 & ->)]|[_ Hi1]]; [|by eapply Hcs].
    apply NoDup_app. split; [by eapply Hcs|]. split; [|apply NoDup_singleton].
    intros x Hx ->%list_elem_of_singleton. by apply (Hfresh dn cs0).
  - intros i j ci cj x Hi Hj Hxi Hxj.
    destruct (Hlook i ci Hi) as [[-> (ci0 & Hci0 & ->)]|[Hni Hi1]],
             (Hlook j cj Hj) as [[-> (cj0 & Hcj0 & ->)]|[Hnj Hj1]]; [done| | |by eapply Hone].
    + apply elem_of_app in Hxi as [Hxi|Hxi%list_elem_of_singleton]; [by eapply Hone|].
      subst x. by destruct (Hfresh j cj).
    + apply elem_of_app in Hxj as [Hxj|Hxj%list_elem_of_singleton]; [by eapply Hone|].
      subst x. by destruct (Hfresh i ci).
  - intros i cs x Hi Hx.
    assert (Hx1 : (x ∉ rts) ∧ sk1 !! x = Some []).
    { destruct (Hlook i cs Hi) as [[-> (cs0 & Hcs0 & ->)]|[_ Hi1]]; [|by eapply Hleaf].
      apply elem_of_app in Hx as [Hx|Hx%list_elem_of_singleton]; [by eapply Hleaf|].
      subst x. split; [|done]. intros Hr. rewrite Forall_forall in Hin0.
      specialize (Hin0 _ Hr). unfold c in Hin0. lia. }
    destruct Hx1 as [Hxr Hxl]. split; [done|].
    rewrite list_lookup_alter_ne; [done|]. by intros ->.
Qed.

(** The shape does not depend on the order of the roots and of the
    children. *)
Lemma shaped_perm rts rts' sk sk' :
  shaped rts sk → rts ≡ₚ rts' → Forall2 (≡ₚ) sk sk' → shaped rts' sk'.
Proof.
  intros (Hnd & Hin & Hcs & Hone & Hleaf) Hr Hsk.
  pose proof (Forall2_length _ _ _ Hsk) as Hlen.
  split; [by rewrite <- Hr|]. split; [|split; [|split]].
  - rewrite <- Hr, <- Hlen. done.
  - intros i cs' Hi. destruct (Forall2_lookup_r _ _ _ _ _ Hsk Hi) as (cs & Hi0 & Hp).
    rewrite <- Hp. by eapply Hcs.
  - intros i j ci' cj' c Hi Hj Hci Hcj.
    destruct (Forall2_lookup_r _ _ _ _ _ Hsk Hi) as (ci & Hi0 & Hpi).
    destruct (Forall2_lookup_r _ _ _ _ _ Hsk Hj) as (cj & Hj0 & Hpj).
    apply (Hone i j ci cj c); [done|done|by rewrite Hpi|by rewrite Hpj].
  - intros i cs' c Hi Hc.
    destruct (Forall2_lookup_r _ _ _ _ _ Hsk Hi) as (cs & Hi0 & Hp).
    destruct (Hleaf i cs c Hi0) as [Hcr Hcl]; [by rewrite Hp|].
    split; [by rewrite <- Hr|].
    destruct (Forall2_lookup_l _ _ _ _ _ Hsk Hcl) as (l' & Hl' & Hp').
    apply Permutation_nil_l in Hp'. by subst.
Qed.

Lemma skeleton_leaf h c : skeleton h !! c = Some [] → ∃ cn, h !! c = Some cn ∧ children cn = [].
Proof.
  rewrite skeleton_lookup. destruct (h !! c) as [cn|]; [|done].
  intros [= Hc]. by exists cn.
Qed.

Lemma node_free_leaf fuel h freed c cn :
  h !! c = Some cn → children cn = [] → c ∉ freed →
  node_free (S fuel) h freed c = Some (c :: freed).
Proof.
  intros Hc Hleaf Hfresh. simpl. destruct (decide (c ∈ freed)); [done|].
  by rewrite Hc, Hleaf.
Qed.

(** The teardown of a forest releases every node once. *)
Lemma free_forest_shaped h rts : shaped rts (skeleton h) → is_Some (free_forest h rts).
Proof.
  intros (Hnd & Hin & Hcs & Hone & Hleaf). unfold free_forest.
  destruct (loop_prefix_returns (node_free (budget h) h)
              (λ pre freed, ∀ x, x ∈ freed →
                 x ∈ pre ∨ ∃ r cs, r ∈ pre ∧ skeleton h !! r = Some cs ∧ x ∈ cs)
              rts []) as (freed & -> & _); [| |done].
  { intros x Hx. by apply elem_of_nil in Hx. }
  intros pre r post freed Hrts Hfreed.
  assert (Hr : r ∈ rts) by (rewrite Hrts, elem_of_app, elem_of_cons; auto).
  assert (Hpre : ∀ y, y ∈ pre → y ∈ rts ∧ y ≠ r).
  { intros y Hy. split; [rewrite Hrts, elem_of_app; auto|].
    intros ->. rewrite Hrts in Hnd. apply NoDup_app in Hnd as (_ & Hdis & _).
    apply (Hdis r Hy). by left. }
  assert (Hrlt : (r < length h)%nat).
  { rewrite Forall_forall in Hin. rewrite <- skeleton_length. by apply Hin. }
  destruct (lookup_lt_is_Some_2 h r Hrlt) as [nd Hnd_r].
  assert (Hskr : skeleton h !! r = Some (children nd)) by by rewrite skeleton_lookup, Hnd_r.
  assert (Hrfresh : r ∉ freed).
  { intros [Hy|(r' & cs & Hr' & Hcs' & Hx)]%Hfreed; [by destruct (Hpre r Hy)|].
    by destruct (Hleaf r' cs r Hcs' Hx). }
  unfold budget. cbn [node_free]. destruct (decide (r ∈ freed)); [done|]. rewrite Hnd_r.
  destruct (loop_prefix_returns (node_free (length h) h)
              (λ cpre freed', ∀ x, x ∈ freed' → x ∈ freed ∨ x = r ∨ x ∈ cpre)
              (children nd) (r :: freed)) as (freed2 & Hloop & Hfreed2).
  - intros x [->|Hx]%elem_of_cons; auto.
  - intros cpre c cpost freed' Hch Hfreed'.
    assert (Hc : c ∈ children nd) by (rewrite Hch, elem_of_app, elem_of_cons; auto).
    destruct (Hleaf r _ c Hskr Hc) as [Hcr Hcl].
    destruct (skeleton_leaf _ _ Hcl) as (cn & Hcn & Hcnl).
    assert (Hcfresh : c ∉ freed').
    { intros [Hx|[->|Hx]]%Hfreed'; [|done|].
      - apply Hfreed in Hx as [Hy|(r' & cs & Hr' & Hcs' & Hx)]; [by destruct (Hpre c Hy)|].
        destruct (Hpre r' Hr') as [_ Hne]. apply Hne. by apply (Hone r' r cs (children nd) c).
      - specialize (Hcs r _ Hskr). rewrite Hch in Hcs.
        apply NoDup_app in Hcs as (_ & Hdis & _). apply (Hdis c Hx). by left. }
    destruct (length h) as [|fuel] eqn:Hlen; [lia|].
    exists (c :: freed'). split; [by eapply node_free_leaf|].
    intros x [->|Hx]%elem_of_cons.
    + right. right. apply elem_of_app. right. by apply list_elem_of_singleton.
    + destruct (Hfreed' x Hx) as [?|[?|?]]; auto. right. right. apply elem_of_app. by left.
  - exists freed2. split; [done|]. intros x Hx.
    destruct (Hfreed2 x Hx) as [Hx'|[->|Hx']].
    + destruct (Hfreed x Hx') as [?|(r' & cs & ? & ? & ?)].
      * left. apply elem_of_app. by left.
      * right. exists r', cs. split; [apply elem_of_app; by left|done].
    + left. apply elem_of_app. right. by apply list_elem_of_singleton.
    + right. exists r, (children nd). split; [|done].
      apply elem_of_app. right. by apply list_elem_of_singleton.
Qed.

Lemma reordered_skeleton h h' : reordered h h' → Forall2 (≡ₚ) (skeleton h) (skeleton h').
Proof.
  intros Hre. unfold skeleton. apply Forall2_fmap.
  eapply Forall2_impl; [done|]. by intros nd nd' [_ ->].
Qed.

(** Sorting the children of a root of a forest returns. *)
Lemma sort_children_shaped h rts r :
  shaped rts (skeleton h) → r ∈ rts →
  ∃ h', sort_children (budget h) h r = Some h' ∧ reordered h h'.
Proof.
  intros (Hnd & Hin & Hcs & Hone & Hleaf) Hr.
  assert (Hrlt : (r < length h)%nat).
  { rewrite Forall_forall in Hin. rewrite <- skeleton_length. by apply Hin. }
  destruct (lookup_lt_is_Some_2 h r Hrlt) as [nd Hnd_r].
  assert (Hskr : skeleton h !! r = Some (children nd)) by by rewrite skeleton_lookup, Hnd_r.
  assert (Hret : is_Some (sort_children (budget h) h r)).
  { unfold budget. cbn [sort_children]. rewrite Hnd_r.
    destruct (length (children nd) <=? 1)%nat; [done|].
    set (sorted := qsort (node_cmp h) (children nd)).
    set (h1 := alter (set_children sorted) r h).
    assert (Hh1r : h1 !! r = Some (set_children sorted nd)).
    { unfold h1. by rewrite list_lookup_alter_eq, Hnd_r. }
    match goal with
    | |- is_Some (loop ?body h1 ?l) =>
        destruct (loop_returns body (λ hi, hi = h1) l h1) as (h' & -> & _); [done| |done]
    end.
    intros hi i Hi ->. exists h1. split; [|done]. rewrite Hh1r. cbn [children set_children].
    apply elem_of_seq in Hi as [_ Hi]. cbn in Hi.
    assert (Hlen : length sorted = length (children nd)).
    { unfold sorted. by rewrite (qsort_perm (node_cmp h) (children nd)). }
    destruct (lookup_lt_is_Some_2 sorted i) as [ch Hch]; [lia|]. rewrite Hch.
    assert (Hchin : ch ∈ children nd).
    { rewrite <- (qsort_perm (node_cmp h) (children nd)). by eapply list_elem_of_lookup_2. }
    destruct (Hleaf r _ ch Hskr Hchin) as [Hchr Hchl].
    destruct (skeleton_leaf _ _ Hchl) as (cn & Hcn & Hcnl).
    destruct (length h) as [|fuel] eqn:Hl; [lia|]. cbn [sort_children].
    assert (h1 !! ch = Some cn) as ->.
    { unfold h1. rewrite list_lookup_alter_ne; [done|]. by intros ->. }
    by rewrite Hcnl. }
  destruct Hret as [h' Hsort]. exists h'. split; [done|]. by eapply sort_children_reordered.
Qed.

Lemma shaped_reordered rts h h' :
  shaped rts (skeleton h) → reordered h h' → shaped rts (skeleton h').
Proof.
  intros Hsh Hre. eapply shaped_perm; [done|done|]. by apply reordered_skeleton.
Qed.

Lemma sort_roots_shaped rts h :
  shaped rts (skeleton h) →
  ∃ h', loop (λ hi r, sort_children (budget hi) hi r) h rts = Some h'
        ∧ reordered h h' ∧ shaped rts (skeleton h').
Proof.
  intros Hsh.
  destruct (loop_returns (λ hi r, sort_children (budget hi) hi r)
              (λ hi, reordered h hi ∧ shaped rts (skeleton hi)) rts h)
    as (h' & Hloop & Hre & Hsh'); [split; [apply reordered_refl|done]| |by exists h'].
  intros hi r Hr [Hre Hshi].
  destruct (sort_children_shaped hi rts r Hshi Hr) as (hj & Hsort & Hrej).
  exists hj. split; [done|]. split; [by eapply reordered_trans|by eapply shaped_reordered].
Qed.

(** ** The builder on a listing without repeated identifiers *)

Lemma find_node_fresh flat nm : nm ∉ names flat → find_node flat nm = None.
Proof.
  intros Hfresh. destruct (find_node flat nm) as [i|] eqn:Hfind; [|done].
  destruct (find_node_Some _ _ _ Hfind) as (nd & Hi & Hnm). destruct Hfresh.
  unfold names. apply list_elem_of_fmap. exists nd. split; [done|].
  by eapply list_elem_of_lookup_2.
Qed.

Lemma ensure_node_fresh flat nm sz ty :
  nm ∉ names flat →
  ensure_node flat nm sz ty = (flat ++ [node_create nm sz ty], length flat).
Proof. intros Hfresh. unfold ensure_node. by rewrite find_node_fresh. Qed.

Lemma skeleton_add_child h p c :
  skeleton (node_add_child h p c) = alter (λ l, l ++ [c]) p (skeleton h).
Proof.
  unfold node_add_child, skeleton.
  rewrite (list_fmap_alter children _ (λ l, l ++ [c])) by (by apply Forall_forall).
  f_equal. by apply (skeleton_alter (set_parent (Some p)) c h).
Qed.

Lemma skeleton_snoc h nd : skeleton (h ++ [nd]) = skeleton h ++ [children nd].
Proof. unfold skeleton. by rewrite fmap_app. Qed.

Lemma names_snoc h nd : names (h ++ [nd]) = names h ++ [name nd].
Proof. unfold names. by rewrite fmap_app. Qed.

Lemma add_partition_fresh h dn kv x :
  cfstr (dict_get kv "DeviceIdentifier") = Some x → x ∉ names h →
  ∃ h', add_partition h (Some dn) (PDict kv) = Some h'
        ∧ names h' = names h ++ [x]
        ∧ skeleton h' = alter (λ l, l ++ [length h]) dn (skeleton h ++ [[]]).
Proof.
  intros Hid Hfresh. cbn [add_partition]. rewrite Hid, ensure_node_fresh by done.
  eexists. split; [done|]. split.
  - by rewrite names_add_child, names_alter, names_snoc.
  - by rewrite skeleton_add_child, skeleton_alter, skeleton_snoc.
Qed.

Lemma add_apfs_volume_fresh h dn kv x :
  cfstr (dict_get kv "DeviceIdentifier") = Some x → x ∉ names h →
  ∃ h', add_apfs_volume h (Some dn) (PDict kv) = Some h'
        ∧ names h' = names h ++ [x]
        ∧ skeleton h' = alter (λ l, l ++ [length h]) dn (skeleton h ++ [[]]).
Proof.
  intros Hid Hfresh. cbn [add_apfs_volume]. rewrite Hid, ensure_node_fresh by done.
  eexists. split; [done|]. split.
  - rewrite names_alter by apply volume_setter_name.
    by rewrite names_add_child, names_snoc.
  - rewrite skeleton_alter by apply volume_setter_children.
    by rewrite skeleton_add_child, skeleton_snoc.
Qed.

(** A loop over nested entries with fresh identifiers: every entry adds a
    leaf below the root [dn]. *)
Lemma loop_nested_shaped (step : list Node → plist → option (list Node)) rts dn :
  (∀ h kv x, cfstr (dict_get kv "DeviceIdentifier") = Some x → x ∉ names h →
             ∃ h', step h (PDict kv) = Some h'
                   ∧ names h' = names h ++ [x]
                   ∧ skeleton h' = alter (λ l, l ++ [length h]) dn (skeleton h ++ [[]])) →
  (∀ h kv, cfstr (dict_get kv "DeviceIdentifier") = None → step h (PDict kv) = Some h) →
  dn ∈ rts →
  ∀ parts ids h,
    named ids h → shaped rts (skeleton h) →
    Forall (λ e, ∃ kv, e = PDict kv) parts →
    NoDup (ids ++ omap entry_id parts) →
    ∃ h', loop step h parts = Some h'
          ∧ named (ids ++ omap entry_id parts) h' ∧ shaped rts (skeleton h').
Proof.
  intros Hfresh Hnoid Hdn.
  induction parts as [|part parts IH]; intros ids h Hnamed Hsh Hdict Hnd.
  - exists h. cbn [omap list_omap]. by rewrite app_nil_r.
  - apply Forall_cons in Hdict as [[kv ->] Hdict]. cbn [loop].
    change (PDict kv :: parts) with ([PDict kv] ++ parts) in *.
    rewrite omap_app, omap_entry_id_one in *. cbn [entry_id] in *.
    destruct (cfstr (dict_get kv "DeviceIdentifier")) as [x|] eqn:Hid.
    + assert (Hx : x ∉ names h).
      { rewrite (Hnamed x). apply NoDup_app in Hnd as (_ & Hdis & Hnd2).
        intros Hin. apply (Hdis x Hin). apply elem_of_app. left.
        by apply list_elem_of_singleton. }
      destruct (Hfresh h kv x Hid Hx) as (h1 & -> & Hnames & Hsk).
      destruct (IH (ids ++ [x]) h1) as (h' & Hloop & Hnamed' & Hsh'); [| |done| |].
      * intros y. rewrite Hnames, !elem_of_app, (Hnamed y). done.
      * rewrite Hsk, <- (skeleton_length h). by apply shaped_new_child.
      * by rewrite <- app_assoc.
      * exists h'. split; [done|]. split; [|done]. by rewrite app_assoc.
    + rewrite (Hnoid h kv Hid). cbn [app] in *. by apply IH.
Qed.

(** The identifiers the builder has met when it is at the entry [d]. *)
Lemma listed_ids_at pre d post id :
  entry_id d = Some id →
  (top_ids pre ++ [id] ++ attached_ids pre
     ++ (if decide (length (identified pre) < 64)%nat then nested_ids d else []))
  `sublist_of` listed_ids (pre ++ d :: post)
  ∧ ((length (identified pre) < 64)%nat → d ∈ rooted (pre ++ d :: post)).
Proof.
  intros Hid.
  assert (Htop : top_ids (pre ++ d :: post) = top_ids pre ++ [id] ++ top_ids post).
  { unfold top_ids. rewrite omap_app. cbn [omap list_omap]. by rewrite Hid. }
  assert (Hident : identified (pre ++ d :: post) = identified pre ++ d :: identified post).
  { unfold identified. rewrite filter_app, filter_cons_True; [done|]. by rewrite Hid. }
  unfold listed_ids, attached_ids, rooted. rewrite Htop, Hident.
  destruct (decide (length (identified pre) < 64)%nat) as [Hroom|Hfull].
  - rewrite take_app, (take_ge (identified pre)) by lia.
    destruct (64 - length (identified pre))%nat as [|k] eqn:Hk; [lia|]. cbn [take].
    split.
    + rewrite bind_app, bind_cons. rewrite <- !app_assoc.
      apply sublist_app; [done|]. apply sublist_app; [done|].
      apply sublist_inserts_l. apply sublist_app; [done|].
      by apply sublist_inserts_r.
    + intros _. apply elem_of_app. right. by left.
  - rewrite take_app_le by lia. split; [|lia]. rewrite app_nil_r, <- !app_assoc.
    apply sublist_app; [done|]. apply sublist_app; [done|]. by apply sublist_inserts_l.
Qed.

Lemma collect_entry_shaped pre d post st :
  well_listed (pre ++ d :: post) → collected pre st →
  shaped (roots st) (skeleton (flat st)) →
  ∃ st', collect_entry None st d = Some st' ∧ shaped (roots st') (skeleton (flat st')).
Proof.
  intros [Hnodup Hdicts] (Hidx & Hvalid & Hroots) Hsh.
  destruct d as [| | | |e]; try by exists st.
  cbn [collect_entry].
  destruct (cfstr (dict_get e "DeviceIdentifier")) as [idstr|] eqn:Hid; [|by exists st].
  destruct (listed_ids_at pre (PDict e) post idstr Hid) as [Hsub Hrooted].
  pose proof (sublist_NoDup _ _ Hnodup Hsub) as Hnd.
  pose proof (root_names_length _ _ Hroots) as Hlen. rewrite <- identified_length in Hlen.
  destruct Hidx as (_ & Hnamed & _).
  assert (Hfresh : idstr ∉ names (flat st)).
  { rewrite (Hnamed idstr). unfold listed_ids.
    apply NoDup_app in Hnd as (_ & Hdis1 & Hnd2).
    apply NoDup_app in Hnd2 as (_ & Hdis2 & _).
    intros [Hin|Hin]%elem_of_app.
    - apply (Hdis1 idstr Hin). apply elem_of_app. left. by apply list_elem_of_singleton.
    - apply (Hdis2 idstr); [by apply list_elem_of_singleton|]. apply elem_of_app. by left. }
  rewrite ensure_node_fresh by done.
  set (new := node_create idstr _ _).
  set (contentstr := cfstr (dict_get e "Content")).
  set (flat2 := match contentstr with
                | Some _ => alter (set_fstype (content_to_fstype contentstr 64))
                              (length (flat st)) (flat st ++ [new])
                | None => flat st ++ [new]
                end).
  assert (Hsk2 : skeleton flat2 = skeleton (flat st) ++ [[]]).
  { unfold flat2. destruct contentstr; [rewrite skeleton_alter by done|]; apply skeleton_snoc. }
  assert (Hnames2 : names flat2 = names (flat st) ++ [idstr]).
  { unfold flat2. destruct contentstr; [rewrite names_alter by done|]; apply names_snoc. }
  destruct (Nat.leb_spec 64 (length (roots st))) as [Hfull|Hroom].
  - eexists. split; [done|]. cbn [roots flat]. rewrite Hsk2. by apply shaped_new_node.
  - cbn [roots flat].
    destruct (decide (length (identified pre) < 64)%nat) as [_|Hno]; [|lia].
    assert (Hdn : length (flat st) ∈ roots st ++ [length (flat st)]).
    { apply elem_of_app. right. by apply list_elem_of_singleton. }
    assert (Hsh2 : shaped (roots st ++ [length (flat st)]) (skeleton flat2)).
    { rewrite Hsk2, <- (skeleton_length (flat st)). by apply shaped_new_root. }
    assert (Hnamed2 : named (top_ids pre ++ [idstr] ++ attached_ids pre) flat2).
    { intros y. rewrite Hnames2, !elem_of_app, (Hnamed y). unfold listed_ids.
      rewrite elem_of_app. tauto. }
    assert (Hentries : Forall (λ x, ∃ kv, x = PDict kv) (nested_entries (PDict e))).
    { apply Forall_forall. intros x Hx. apply (Hdicts (PDict e)); [apply Hrooted; lia|done]. }
    cbn [nested_entries] in Hentries. apply Forall_app in Hentries as [Hparts Hvols].
    rewrite nested_ids_split in Hnd. rewrite !app_assoc in Hnd. rewrite <- !app_assoc in Hnd.
    destruct (loop_nested_shaped (λ f, add_partition f (Some (length (flat st)))) _ _
                (λ h kv x, add_partition_fresh h _ kv x)
                (λ h kv Hnone, ltac:(cbn [add_partition]; by rewrite Hnone)) Hdn
                (sub_array (dict_get e "Partitions"))
                (top_ids pre ++ [idstr] ++ attached_ids pre) flat2 Hnamed2 Hsh2 Hparts)
      as (flat3 & -> & Hnamed3 & Hsh3).
    { rewrite !app_assoc in Hnd. apply NoDup_app in Hnd as (Hnd' & _ & _).
      by rewrite <- !app_assoc in Hnd' |- *. }
    destruct (loop_nested_shaped (λ f, add_apfs_volume f (Some (length (flat st)))) _ _
                (λ h kv x, add_apfs_volume_fresh h _ kv x)
                (λ h kv Hnone, ltac:(cbn [add_apfs_volume]; by rewrite Hnone)) Hdn
                (sub_array (dict_get e "APFSVolumes")) _ flat3 Hnamed3 Hsh3 Hvols)
      as (flat4 & -> & _ & Hsh4); [by rewrite <- !app_assoc|].
    eexists. split; [done|]. done.
Qed.

(** On such a listing the builder returns a forest. *)
Lemma collect_nodes_shaped all :
  well_listed all →
  ∃ st, collect_nodes all (mkForest [] []) None = Some st
        ∧ shaped (roots st) (skeleton (flat st)).
Proof.
  intros Hwell.
  destruct (loop_prefix_returns (collect_entry None)
              (λ pre st, collected pre st ∧ shaped (roots st) (skeleton (flat st)))
              all (mkForest [] [])) as (st & Hloop & _ & Hsh); [| |by exists st].
  - split.
    + split; [|split; [by constructor|done]].
      split; [constructor|]. split; [done|]. intros nd c Hn. by apply elem_of_nil in Hn.
    + change (skeleton (flat (mkForest [] []))) with (@nil (list nat)).
      split; [constructor|]. split; [constructor|].
      split; [intros i cs Hi; by rewrite lookup_nil in Hi|].
      split; [intros i j ci cj c Hi; by rewrite lookup_nil in Hi|].
      intros i cs c Hi. by rewrite lookup_nil in Hi.
  - intros pre d post st -> [Hcol Hsh].
    destruct (collect_entry_shaped pre d post st Hwell Hcol Hsh) as (st' & Hstep & Hsh').
    exists st'. split; [done|]. split; [|done]. by eapply collect_entry_collected.
Qed.

Lemma build_tree_shaped d all :
  dict_get d "AllDisksAndPartitions" = Some (PArray all) → well_listed all →
  ∃ st, build_tree d = Some (0, st) ∧ shaped (roots st) (skeleton (flat st)).
Proof.
  intros Hall Hwell. unfold build_tree. rewrite Hall.
  destruct (collect_nodes_shaped all Hwell) as (st0 & -> & Hsh0).
  destruct (sort_roots_shaped (roots st0) (flat st0) Hsh0) as (h & -> & _ & Hsh).
  eexists. split; [done|]. cbn [roots flat].
  eapply shaped_perm; [done| |].
  - symmetry. apply qsort_perm.
  - apply Forall2_same_length_lookup_2; [done|]. intros i x y ? ?. by simplify_eq.
Qed.


(** ** The renderers on a forest of depth two *)

Lemma out_loop_text {A} (body : nat → A → option string) (f : nat → A → string) l i :
  (∀ j x, l !! j = Some x → body (i + j)%nat x = Some (f (i + j)%nat x)) →
  out_loop body i l = Some (str_concat (imap (λ j, f (i + j)%nat) l)).
Proof.
  revert i. induction l as [|x l IH]; intros i Hbody; [done|].
  cbn [out_loop]. pose proof (Hbody 0%nat x eq_refl) as H0. rewrite Nat.add_0_r in H0.
  rewrite H0, (IH (S i)).
  - cbn [imap str_concat foldr]. rewrite Nat.add_0_r. do 3 f_equal.
    apply imap_ext. intros j y _. cbn. f_equal. lia.
  - intros j y Hj. replace (S i + j)%nat with (i + S j)%nat by lia. by apply Hbody.
Qed.

Lemma imap_ignore {A B} (f : A → B) (l : list A) : imap (λ _ : nat, f) l = f <$> l.
Proof. exact (imap_const f l). Qed.

Lemma node_at_lookup h n nd : h !! n = Some nd → node_at h n = nd.
Proof. unfold node_at. by intros ->. Qed.

(** A root of a forest of depth two and its children. *)
Lemma shaped_root rts h r :
  shaped rts (skeleton h) → r ∈ rts →
  h !! r = Some (node_at h r)
  ∧ ∀ c, c ∈ children (node_at h r) →
         h !! c = Some (node_at h c) ∧ children (node_at h c) = [].
Proof.
  intros (_ & Hin & _ & _ & Hleaf) Hr.
  rewrite Forall_forall in Hin. specialize (Hin r Hr). rewrite skeleton_length in Hin.
  destruct (lookup_lt_is_Some_2 h r Hin) as [nd Hnd].
  rewrite (node_at_lookup h r nd Hnd). split; [done|].
  intros c Hc. destruct (Hleaf r (children nd) c) as [_ Hc']; [by rewrite skeleton_lookup, Hnd|done|].
  destruct (skeleton_leaf _ _ Hc') as (cn & Hcn & Hcs).
  by rewrite (node_at_lookup h c cn Hcn).
Qed.

Lemma print_tree_root fuel h cols r last :
  h !! r = Some (node_at h r) →
  (∀ c, c ∈ children (node_at h r) →
        h !! c = Some (node_at h c) ∧ children (node_at h c) = []) →
  print_tree (S (S fuel)) h cols r "  " last
  = Some (str_concat (imap (tree_child_row h cols (length (children (node_at h r))))
                           (children (node_at h r)))).
Proof.
  intros Hr Hleaf. cbn [print_tree]. rewrite Hr.
  rewrite (out_loop_text _ (tree_child_row h cols (length (children (node_at h r))))); [done|].
  intros j c Hj. cbn [Nat.add].
  destruct (Hleaf c) as [Hc Hcs]; [by eapply list_elem_of_lookup_2|].
  by rewrite Hc, Hcs.
Qed.

Lemma print_forest_tree_shaped h rts cols :
  shaped rts (skeleton h) → print_forest_tree h rts cols = Some (tree_text h rts cols).
Proof.
  intros Hsh. unfold print_forest_tree, tree_text.
  rewrite (out_loop_text _ (λ _, tree_root_rows h cols)); [by rewrite imap_ignore|].
  intros j r Hj. cbn [Nat.add].
  destruct (shaped_root rts h r Hsh) as [Hr Hleaf]; [by eapply list_elem_of_lookup_2|].
  rewrite Hr. unfold budget.
  assert (Hlen : (0 < length h)%nat) by (apply lookup_lt_Some in Hr; lia).
  destruct (length h) as [|k]; [lia|].
  by rewrite (print_tree_root k h cols r _ Hr Hleaf).
Qed.

Lemma print_list_dfs_leaf fuel h cols c :
  h !! c = Some (node_at h c) → children (node_at h c) = [] →
  print_list_dfs (S fuel) h cols c = Some (list_row h cols c "").
Proof. intros Hc Hcs. cbn [print_list_dfs]. by rewrite Hc, Hcs. Qed.

Lemma print_list_shaped h rts cols :
  shaped rts (skeleton h) → print_list h rts cols = Some (list_text h rts cols).
Proof.
  intros Hsh. unfold print_list, list_text.
  rewrite (out_loop_text _ (λ _, list_root_rows h cols)); [by rewrite imap_ignore|].
  intros j r Hj. cbn [Nat.add].
  destruct (shaped_root rts h r Hsh) as [Hr Hleaf]; [by eapply list_elem_of_lookup_2|].
  unfold budget.
  assert (Hlen : (0 < length h)%nat) by (apply lookup_lt_Some in Hr; lia).
  destruct (length h) as [|k]; [lia|].
  cbn [print_list_dfs]. rewrite Hr.
  rewrite (out_loop_text _ (λ _ c, list_row h cols c "")); [by rewrite imap_ignore|].
  intros i c Hi. destruct (Hleaf c) as [Hc Hcs]; [by eapply list_elem_of_lookup_2|].
  by apply print_list_dfs_leaf.
Qed.

Lemma print_json_shaped h rts :
  shaped rts (skeleton h) → print_json h rts = Some (json_text h rts).
Proof.
  intros Hsh. unfold print_json, json_text.
  rewrite (out_loop_text _ (json_root h)); [done|].
  intros j r Hj. cbn [Nat.add].
  destruct (shaped_root rts h r Hsh) as [Hr Hleaf]; [by eapply list_elem_of_lookup_2|].
  unfold budget, json_root.
  assert (Hlen : (0 < length h)%nat) by (apply lookup_lt_Some in Hr; lia).
  destruct (length h) as [|k]; [lia|].
  cbn [emit_json]. rewrite Hr.
  destruct (children (node_at h r)) as [|c0 cs] eqn:Hcs; [done|]. rewrite <- Hcs in *.
  rewrite (out_loop_text _ (λ i c, json_open (i =? 0)%nat (node_at h c) 2 +:+ "}")).
  - by rewrite Hcs.
  - intros i c Hi. cbn [Nat.add].
    destruct (Hleaf c) as [Hc Hleafc]; [by eapply list_elem_of_lookup_2|].
    cbn [emit_json]. by rewrite Hc, Hleafc.
Qed.

(** On a forest of depth two every format prints its text. *)
Lemma render_shaped o cols st :
  shaped (roots st) (skeleton (flat st)) → render o cols st = Some (forest_text o cols st).
Proof.
  intros Hsh. unfold render, forest_text. destruct (opt_J o); [by apply print_json_shaped|].
  destruct (opt_list o); [by apply print_list_shaped|by apply print_forest_tree_shaped].
Qed.

(** ** C8: what aborts the run and what does not *)

(** A node whose lookup fails is left as it was. *)
Lemma fill_info_all_failed info h i nd :
  h !! i = Some nd → (∀ kv, info (name nd) ≠ Some (PDict kv)) →
  fill_info_all info h !! i = Some nd.
Proof.
  intros Hi Hfail. rewrite fill_info_all_fmap, list_lookup_fmap, Hi. cbn. f_equal.
  destruct (info (name nd)) as [[| | | |kv]|] eqn:Hinfo; try done. by destruct (Hfail kv).
Qed.

(** A run that got its listing and built a forest: what it renders. *)
Lemma run_with_columns_renders cols o w d st :
  get_list_plist w = Some d → build_tree d = Some (0, st) →
  is_Some (free_forest (flat st) (roots st)) →
  ∃ h1 text,
    fill_mountpoints (roots st) (flat st) (mount_src w) = Some h1
    ∧ skeleton h1 = skeleton (flat st)
    ∧ (mount_src w = None → h1 = flat st)
    ∧ render o cols (mkForest (roots st)
                       (if opt_f o then fill_info_all (info_src w) h1 else h1)) = Some text
    ∧ run_with_columns cols o w = Some (mkRun 0 text "").
Proof.
  intros Hlist Hbuild Hfree.
  destruct (run_with_columns_completes cols o w d st Hlist Hbuild Hfree)
    as (h1 & text & Hmnt & Hrender & Hrun).
  destruct (fill_mountpoints_returns (roots st) (flat st) (mount_src w) Hfree)
    as (h1' & Hmnt' & Hsk & _).
  rewrite Hmnt in Hmnt'. injection Hmnt' as <-.
  exists h1, text. split; [done|]. split; [done|]. split; [|done].
  intros Hnone. rewrite Hnone in Hmnt. cbn in Hmnt. by injection Hmnt as <-.
Qed.

(** C8. When the listing cannot be obtained or is not a dictionary, or has
    no array of disks and partitions, the run ends with status 1, one line
    on the error stream and nothing on the output. A run that built its
    forest ends with status 0 whatever the mount table and the per-device
    lookups did, and its output is the rendering of the store that mount
    resolution and, under [-f], the enrichment leave: without a mount
    table the store is the one that was built, and a node whose lookup
    fails is as mount resolution left it. Every listing that has the
    array, repeats no identifier and has dictionaries as nested entries is
    built into a forest of depth two, and the output is then the text of
    that store in the format asked for, in which every cell is the field
    of the node as it is, an empty field an empty cell. *)
Theorem listing_failure_aborts (o : Options) (w : Host) :
  (get_list_plist w = None ↔ ∀ d, list_src w ≠ Some (PDict d))
  ∧ (get_list_plist w = None →
     main o w
     = Some (mkRun 1 ""
               ((if fst (parse_output_option (strdup_ok w) (opt_o o)) =? 0
                 then "mlsblk: failed to run diskutil list -plist"
                 else "mlsblk: invalid -o columns") +:+ nl)))
  ∧ (∀ d, get_list_plist w = Some d →
          (∀ all, dict_get d "AllDisksAndPartitions" ≠ Some (PArray all)) →
          main o w
          = Some (mkRun 1 ""
                    ((if fst (parse_output_option (strdup_ok w) (opt_o o)) =? 0
                      then "mlsblk: failed to parse disk list"
                      else "mlsblk: invalid -o columns") +:+ nl)))
  ∧ (∀ d st, get_list_plist w = Some d → build_tree d = Some (0, st) →
             is_Some (free_forest (flat st) (roots st)) →
             fst (parse_output_option (strdup_ok w) (opt_o o)) = 0 →
             ∃ h1 text,
               fill_mountpoints (roots st) (flat st) (mount_src w) = Some h1
               ∧ (mount_src w = None → h1 = flat st)
               ∧ (∀ i nd, h1 !! i = Some nd →
                          opt_f o = false ∨ (∀ kv, info_src w (name nd) ≠ Some (PDict kv)) →
                          (if opt_f o then fill_info_all (info_src w) h1 else h1) !! i
                          = Some nd)
               ∧ render o (effective_columns o (strdup_ok w))
                   (mkForest (roots st)
                      (if opt_f o then fill_info_all (info_src w) h1 else h1)) = Some text
               ∧ main o w = Some (mkRun 0 text "")
               ∧ (mount_src w = None → info_src w = no_info →
                  render o (effective_columns o (strdup_ok w)) st = Some text))
  ∧ (∀ d all, get_list_plist w = Some d →
              dict_get d "AllDisksAndPartitions" = Some (PArray all) → well_listed all →
              fst (parse_output_option (strdup_ok w) (opt_o o)) = 0 →
              ∃ st h1,
                build_tree d = Some (0, st)
                ∧ shaped (roots st) (skeleton (flat st))
                ∧ fill_mountpoints (roots st) (flat st) (mount_src w) = Some h1
                ∧ (mount_src w = None → h1 = flat st)
                ∧ (∀ i nd, h1 !! i = Some nd →
                           opt_f o = false ∨ (∀ kv, info_src w (name nd) ≠ Some (PDict kv)) →
                           (if opt_f o then fill_info_all (info_src w) h1 else h1) !! i
                           = Some nd)
                ∧ main o w
                  = Some (mkRun 0
                            (forest_text o (effective_columns o (strdup_ok w))
                               (mkForest (roots st)
                                  (if opt_f o then fill_info_all (info_src w) h1 else h1)))
                            "")
                ∧ (mount_src w = None → info_src w = no_info →
                   main o w
                   = Some (mkRun 0 (forest_text o (effective_columns o (strdup_ok w)) st) "")
                   ∧ render o (effective_columns o (strdup_ok w)) st
                     = Some (forest_text o (effective_columns o (strdup_ok w)) st))).
Proof.
  assert (Hkept : ∀ h1 i nd, h1 !! i = Some nd →
             opt_f o = false ∨ (∀ kv, info_src w (name nd) ≠ Some (PDict kv)) →
             (if opt_f o then fill_info_all (info_src w) h1 else h1) !! i = Some nd).
  { intros h1 i nd Hi [Hf|Hfail]; [by rewrite Hf|].
    destruct (opt_f o); [by apply fill_info_all_failed|done]. }
  assert (Hdegrade : ∀ d st, get_list_plist w = Some d → build_tree d = Some (0, st) →
             is_Some (free_forest (flat st) (roots st)) →
             fst (parse_output_option (strdup_ok w) (opt_o o)) = 0 →
             ∃ h1 text,
               fill_mountpoints (roots st) (flat st) (mount_src w) = Some h1
               ∧ skeleton h1 = skeleton (flat st)
               ∧ (mount_src w = None → h1 = flat st)
               ∧ render o (effective_columns o (strdup_ok w))
                   (mkForest (roots st)
                      (if opt_f o then fill_info_all (info_src w) h1 else h1)) = Some text
               ∧ main o w = Some (mkRun 0 text "")
               ∧ (mount_src w = None → info_src w = no_info →
                  render o (effective_columns o (strdup_ok w)) st = Some text)).
  { intros d st Hlist Hbuild Hfree Hrc. rewrite main_columns by done.
    destruct (run_with_columns_renders (effective_columns o (strdup_ok w)) o w d st
                Hlist Hbuild Hfree) as (h1 & text & Hmnt & Hsk & Hnomnt & Hrender & Hrun).
    exists h1, text. do 5 (split; [done|]). intros Hnone Hnoinfo.
    rewrite (Hnomnt Hnone), Hnoinfo, fill_info_all_no_info in Hrender.
    destruct st as [rts h]. cbn [roots flat] in *. by destruct (opt_f o). }
  split; [|split; [|split; [|split]]].
  - unfold get_list_plist. destruct (list_src w) as [[| | | |d]|]; split; try done.
    intros H. by destruct (H d).
  - intros Hlist. destruct (Z.eqb_spec (fst (parse_output_option (strdup_ok w) (opt_o o))) 0)
      as [Hrc|Hrc]; [|by apply main_columns_abort].
    rewrite main_columns by done. unfold run_with_columns. by rewrite Hlist.
  - intros d Hlist Hmiss.
    destruct (Z.eqb_spec (fst (parse_output_option (strdup_ok w) (opt_o o))) 0)
      as [Hrc|Hrc]; [|by apply main_columns_abort].
    rewrite main_columns by done. unfold run_with_columns. rewrite Hlist.
    unfold build_tree.
    destruct (dict_get d "AllDisksAndPartitions") as [[| | |all|]|] eqn:Hall; try done.
    by destruct (Hmiss all).
  - intros d st Hlist Hbuild Hfree Hrc.
    destruct (Hdegrade d st Hlist Hbuild Hfree Hrc)
      as (h1 & text & Hmnt & _ & Hnomnt & Hrender & Hmain & Hold).
    exists h1, text. split; [done|]. split; [done|]. split; [apply Hkept|done].
  - intros d all Hlist Hall Hwell Hrc.
    destruct (build_tree_shaped d all Hall Hwell) as (st & Hbuild & Hsh).
    destruct (Hdegrade d st Hlist Hbuild (free_forest_shaped _ _ Hsh) Hrc)
      as (h1 & text & Hmnt & Hsk & Hnomnt & Hrender & Hmain & Hold).
    exists st, h1. do 4 (split; [done|]). split; [apply Hkept|].
    assert (Hsk2 : skeleton (if opt_f o then fill_info_all (info_src w) h1 else h1)
                   = skeleton (flat st)).
    { destruct (opt_f o); [by rewrite fill_info_all_skeleton|done]. }
    rewrite render_shaped in Hrender by (cbn [roots flat]; by rewrite Hsk2).
    injection Hrender as <-. split; [done|].
    intros Hnone Hnoinfo. specialize (Hold Hnone Hnoinfo).
    rewrite render_shaped in Hold |- * by done. injection Hold as Hold.
    split; [by rewrite Hmain, Hold|done].
Qed.

(** No listing; a listing without the array; and the scenario with [-f]
    when every lookup fails: as a tree and as JSON without a mount table,
    and as a list with one. The cells of the fields that nothing set are
    empty. *)
Lemma listing_failure_aborts_witness :
  main default_options (mkHost None None no_info true)
  = Some (mkRun 1 "" ("mlsblk: failed to run diskutil list -plist" +:+ nl))
  ∧ main default_options (mkHost (Some (PDict [("AllDisks", PArray [])])) None no_info true)
    = Some (mkRun 1 "" ("mlsblk: failed to parse disk list" +:+ nl))
  ∧ main (mkOptions true false false None) (host_of scenario_listing)
    = Some (mkRun 0 (lines ["NAME SIZE TYPE FSTYPE MOUNTPOINT LABEL UUID";
                            "disk0 113.0G disk    ";
                            "  └── disk0s1 112.9G part apfs   "]) "")
  ∧ main (mkOptions true true false None) (host_of scenario_listing)
    = Some (mkRun 0
              ("{" +:+ quoted "blockdevices" +:+ ":[" +:+ nl
               +:+ "  {" +:+ quoted "name" +:+ ":" +:+ quoted "disk0" +:+ ","
               +:+ quoted "size" +:+ ":121332826112,"
               +:+ quoted "type" +:+ ":" +:+ quoted "disk" +:+ ","
               +:+ quoted "mountpoint" +:+ ":" +:+ quoted "" +:+ ","
               +:+ quoted "fstype" +:+ ":" +:+ quoted "" +:+ ","
               +:+ quoted "label" +:+ ":" +:+ quoted "" +:+ ","
               +:+ quoted "uuid" +:+ ":" +:+ quoted "" +:+ ","
               +:+ quoted "children" +:+ ":["
               +:+ "    {" +:+ quoted "name" +:+ ":" +:+ quoted "disk0s1" +:+ ","
               +:+ quoted "size" +:+ ":121213132800,"
               +:+ quoted "type" +:+ ":" +:+ quoted "part" +:+ ","
               +:+ quoted "mountpoint" +:+ ":" +:+ quoted "" +:+ ","
               +:+ quoted "fstype" +:+ ":" +:+ quoted "apfs" +:+ ","
               +:+ quoted "label" +:+ ":" +:+ quoted "" +:+ ","
               +:+ quoted "uuid" +:+ ":" +:+ quoted "" +:+ "}" +:+ nl
               +:+ "  ]}" +:+ nl
               +:+ "]}" +:+ nl) "")
  ∧ main (mkOptions true false true None) scenario_host
    = Some (mkRun 0 (lines ["NAME SIZE TYPE FSTYPE MOUNTPOINT LABEL UUID";
                            "disk0 113.0G disk    ";
                            "disk0s1 112.9G part apfs /  "]) "").
Proof.
  assert (Hwell : well_listed (sub_array (dict_get
            (default [] (get_list_plist scenario_host)) "AllDisksAndPartitions"))).
  { split; [apply (bool_decide_unpack _); by vm_compute|].
    intros d e Hd He. vm_compute in Hd. apply list_elem_of_singleton in Hd as ->.
    vm_compute in He. apply list_elem_of_singleton in He as ->. by eexists. }
  split; [|split; [|split; [|split]]].
  - by apply (listing_failure_aborts default_options (mkHost None None no_info true)).
  - apply (proj1 (proj2 (proj2 (listing_failure_aborts default_options
             (mkHost (Some (PDict [("AllDisks", PArray [])])) None no_info true))))
             [("AllDisks", PArray [])] eq_refl).
    intros all. discriminate.
  - destruct (proj2 (proj2 (proj2 (proj2 (listing_failure_aborts
                (mkOptions true false false None) (host_of scenario_listing)))))
                _ _ eq_refl eq_refl Hwell eq_refl)
      as (st & h1 & Hbuild & _ & Hmnt & _ & _ & Hmain & _).
    vm_compute in Hbuild. injection Hbuild as <-.
    vm_compute in Hmnt. injection Hmnt as <-. rewrite Hmain. by vm_compute.
  - destruct (proj2 (proj2 (proj2 (proj2 (listing_failure_aborts
                (mkOptions true true false None) (host_of scenario_listing)))))
                _ _ eq_refl eq_refl Hwell eq_refl)
      as (st & h1 & Hbuild & _ & Hmnt & _ & _ & Hmain & _).
    vm_compute in Hbuild. injection Hbuild as <-.
    vm_compute in Hmnt. injection Hmnt as <-. rewrite Hmain. by vm_compute.
  - destruct (proj2 (proj2 (proj2 (proj2 (listing_failure_aborts
                (mkOptions true false true None) scenario_host))))
                _ _ eq_refl eq_refl Hwell eq_refl)
      as (st & h1 & Hbuild & _ & Hmnt & _ & _ & Hmain & _).
    vm_compute in Hbuild. injection Hbuild as <-.
    vm_compute in Hmnt. injection Hmnt as <-. rewrite Hmain. by vm_compute.
Defined.
